(** * BM25 retrieval evaluation: ranking and metrics

    Shallow embedding of [clean_text_and_evaluate_BM25.py]: the per-query
    BM25 feature ([bm25_feature]), the per-query ranking
    ([groupby('qid')['bm25'].rank(ascending=False, method='first')]) and the
    two metrics ([mean_precision], [mean_ndcg]).

    Conventions.
    - A pandas dataframe is a list of rows in row order; every row carries
      its index label, which [reset_index] and [.index] read.
    - Python exceptions are values of [exn]; a function that can raise
      returns a [result].
    - float64 arithmetic is idealised: precisions are exact rationals
      ([Q]), logarithmic quantities are real numbers ([R]).  The only
      non-finite float that is modelled is the [nan] that [np.mean] returns
      on an empty list. *)

From Stdlib Require Import String Ascii.
From Stdlib Require Import List ZArith QArith Reals Lia Lra Bool.
From Stdlib Require Import Permutation Sorting.Sorted.
Import ListNotations.

Set Implicit Arguments.

(** ** Exceptions and results *)

Inductive exn : Type :=
| KeyError
| ZeroDivisionError
| IndexError
| ValueError.

Inductive result (A : Type) : Type :=
| Ok (a : A)
| Raise (e : exn).

Arguments Ok {A} a.
Arguments Raise {A} e.

Definition bind {A B : Type} (c : result A) (k : A -> result B) : result B :=
  match c with
  | Ok a => k a
  | Raise e => Raise e
  end.

Notation "x <- c ;; k" := (bind c (fun x => k))
  (at level 61, c at next level, right associativity).

(** What [np.mean] returns: a finite number, or [nan] on an empty list. *)
Inductive float64 (A : Type) : Type :=
| Fin (x : A)
| NaN.

Arguments Fin {A} x.
Arguments NaN {A}.

(** The sum of a list of reals, as Python's [sum] and numpy's
    accumulation compute it in exact arithmetic. *)
Definition Rsum (l : list R) : R := fold_right Rplus 0%R l.

(** ** The dataframe *)

Definition token := string.

(** One row of [validation_data_sample].  The columns ['bm25'] and ['rank']
    are assigned later in the script; a function reads only the columns
    that exist when it is called. *)
Record row : Type := mkRow {
  index : Z;
  qid : Z;
  clean_queries : list token;
  clean_passages : list token;
  relevancy : Z;
  rank : Z
}.

Definition dataframe := list row.

(** [df[df['qid']==qid]] *)
Definition select_qid (df : dataframe) (q : Z) : dataframe :=
  filter (fun r => qid r =? q)%Z df.

(** [series.unique().tolist()]: the distinct values in the order of their
    first appearance. *)
Fixpoint unique (l : list Z) : list Z :=
  match l with
  | [] => []
  | x :: l' => x :: filter (fun y => negb (y =? x)%Z) (unique l')
  end.

(** [validation_qid = validation_data_sample['qid'].unique().tolist()] *)
Definition validation_qid (df : dataframe) : list Z := unique (map qid df).

(** ** Mean precision *)

Module Precision.

(** [df[df['qid']==qid]['rank'].head(100).index]: the index labels of the
    first 100 rows of the query, in row order. *)
Definition top100 (df : dataframe) (q : Z) : list Z :=
  map index (firstn 100 (select_qid df q)).

(** [df.index.isin(top100)] at one row *)
Definition isin (top : list Z) (r : row) : bool :=
  existsb (Z.eqb (index r)) top.

(** [df[(df['relevancy']==1) & (df.index.isin(top100))].shape[0]] *)
Definition overlap_count (df : dataframe) (top : list Z) : nat :=
  length (filter (fun r => (relevancy r =? 1)%Z && isin top r) df).

(** Python's [/] on two ints. *)
Definition true_divide (a b : nat) : result Q :=
  match b with
  | O => Raise ZeroDivisionError
  | S _ => Ok (Z.of_nat a # Pos.of_nat b)
  end.

Definition Qsum (l : list Q) : Q := fold_right Qplus 0 l.

(** [np.mean] of a list *)
Definition np_mean (l : list Q) : float64 Q :=
  match l with
  | [] => NaN
  | _ :: _ => Fin (Qsum l / inject_Z (Z.of_nat (length l)))
  end.

(** The two lists the loop appends to. *)
Record acc : Type := mkAcc {
  precision_per_qid : list Q;
  retrieved : list nat
}.

(** One iteration of [for qid in validation_qid]. *)
Definition step (df : dataframe) (a : acc) (q : Z) : result acc :=
  let top := top100 df q in
  let overlap := overlap_count df top in
  p <- true_divide overlap (length top) ;;
  Ok (mkAcc (precision_per_qid a ++ [p]) (retrieved a ++ [length top])).

Fixpoint loop (df : dataframe) (qids : list Z) (a : acc) : result acc :=
  match qids with
  | [] => Ok a
  | q :: qs => a' <- step df a q ;; loop df qs a'
  end.

Definition mean_precision (df : dataframe) (validation_qid : list Z)
  : result (float64 Q * list nat) :=
  a <- loop df validation_qid (mkAcc [] []) ;;
  Ok (np_mean (precision_per_qid a), retrieved a).

(** *** The precision of the specification

    The same quantity written after the specification's words, to be
    compared with the loop above: K = min(100, candidate-set size), the K
    top-ranked rows of the query are its rows of rank at most K, and the
    precision is the number of relevant rows among them over K. *)

Definition candidates (df : dataframe) (q : Z) : nat := length (select_qid df q).

Definition K_of (df : dataframe) (q : Z) : nat := Nat.min 100 (candidates df q).

Definition top_ranked (df : dataframe) (q : Z) : dataframe :=
  filter (fun r => (rank r <=? Z.of_nat (K_of df q))%Z) (select_qid df q).

Definition spec_precision (df : dataframe) (q : Z) : Q :=
  Z.of_nat (length (filter (fun r => (relevancy r =? 1)%Z) (top_ranked df q)))
    # Pos.of_nat (K_of df q).

(** What one iteration appends, when it does not raise. *)
Definition precision_of (df : dataframe) (q : Z) : Q :=
  Z.of_nat (overlap_count df (top100 df q)) # Pos.of_nat (length (top100 df q)).

(** A query with 101 candidates: the rows at positions 0..99 are not
    relevant and hold the ranks 2..101, the last row is relevant and holds
    rank 1. *)
Definition row101 (i : nat) : row :=
  mkRow (Z.of_nat i) 7 [] [] (if (i =? 100)%nat then 1 else 0)
        (if (i =? 100)%nat then 1 else Z.of_nat i + 2).

Definition frame101 : dataframe := map row101 (seq 0 101).

End Precision.

(** ** The ranking step

    [validation_data_sample.groupby('qid')['bm25'].rank(ascending=False,
    method='first')] followed by [.astype(int)].  Within every group pandas
    sorts the row positions by descending value with a stable sort and
    hands out 1, 2, ... in that order, so that among equal values the row
    that appears first gets the smaller rank.  The score type is kept
    abstract: the step only compares scores. *)

Module Ranker.
Section Rank.

Variable score : Type.
(** strict "less than" on scores *)
Variable ltb : score -> score -> bool.

(** A row position together with its group key and its value. *)
Definition cell : Type := (nat * (Z * score))%type.

Definition pos (c : cell) : nat := fst c.
Definition key (c : cell) : Z := fst (snd c).
Definition val (c : cell) : score := snd (snd c).

(** Stable insertion for the descending order: [x] came earlier in the
    frame than everything in [l], and stays in front of the cells it does
    not lose against. *)
Fixpoint insert (x : cell) (l : list cell) : list cell :=
  match l with
  | [] => [x]
  | y :: l' => if ltb (val x) (val y) then y :: insert x l' else x :: y :: l'
  end.

Definition sort_desc (l : list cell) : list cell := fold_right insert [] l.

(** The frame with its row positions. *)
Definition cells (rows : list (Z * score)) : list cell :=
  combine (seq 0 (length rows)) rows.

Definition group (rows : list (Z * score)) (q : Z) : list cell :=
  filter (fun c => key c =? q)%Z (cells rows).

(** Offset of position [p] in a list of positions. *)
Fixpoint offset (p : nat) (l : list nat) : nat :=
  match l with
  | [] => 0
  | x :: l' => if (x =? p)%nat then 0 else S (offset p l')
  end.

(** Row order, and the order the sort establishes: [a] stands before [b]
    when it does not lose against [b] and, on a tie, came first. *)
Definition before (a b : cell) : Prop := (pos a < pos b)%nat.

Definition prec (a b : cell) : Prop :=
  ltb (val a) (val b) = false /\
  (ltb (val b) (val a) = false -> (pos a < pos b)%nat).

(** The rank of one cell: one plus its offset in its sorted group. *)
Definition rank_of (rows : list (Z * score)) (c : cell) : Z :=
  Z.of_nat (S (offset (pos c) (map pos (sort_desc (group rows (key c)))))).

(** The whole ['rank'] column, in row order. *)
Definition rank_column (rows : list (Z * score)) : list Z :=
  map (rank_of rows) (cells rows).

(** The ranks of one query's rows, in row order. *)
Definition ranks_of_query (rows : list (Z * score)) (q : Z) : list Z :=
  map (rank_of rows) (group rows q).

End Rank.

(** The scores of the script are floats, idealised as reals. *)
Definition Rltb (a b : R) : bool := if Rlt_dec a b then true else false.

(** [validation_data_sample['rank'] = ...rank(...).astype(int)] on the
    frame paired with its ['bm25'] column. *)
Definition rank_step (df : list (row * R)) : list Z :=
  rank_column Rltb (map (fun x => (qid (fst x), snd x)) df).

(** A small frame of (qid, score) pairs with integer scores: query 1 has
    the scores 5, 7, 7 at the positions 0, 1, 3. *)
Definition sample_scores : list (Z * Z) := [(1, 5); (1, 7); (2, 3); (1, 7)]%Z.

(** The same frame with its rows and real scores. *)
Definition sample_frame : list (row * R) :=
  [ (mkRow 0 1 [] [] 0 0, 5%R); (mkRow 1 1 [] [] 0 0, 7%R);
    (mkRow 2 2 [] [] 0 0, 3%R); (mkRow 3 1 [] [] 0 0, 7%R) ].

End Ranker.

(** ** BM25 *)

Module BM25.

Local Open Scope R_scope.

(** *** The scorer

    The class [BM25Okapi] of the package [rank_bm25] is imported by the
    script and is not part of the sources.  Its definitions below follow
    section 4.1 of the specification. *)

(** Modelled from the spec: [BM25Okapi]'s parameter k1 = 1.5 ("standard
    parameters k1=1.5, b=0.75"). *)
Definition k1 : R := 15 / 10.

(** Modelled from the spec: [BM25Okapi]'s parameter b = 0.75. *)
Definition b : R := 75 / 100.

(** Modelled from the spec: [BM25Okapi]'s term frequency tf(t,d), the
    number of occurrences of [t] in the token sequence [d]. *)
Definition tf (t : token) (d : list token) : nat := count_occ string_dec d t.

(** Modelled from the spec: [BM25Okapi]'s document frequency df(t), the
    "count of corpus documents containing term t". *)
Definition doc_freq (corpus : list (list token)) (t : token) : nat :=
  length (filter (fun d => (0 <? tf t d)%nat) corpus).

(** Modelled from the spec: the total token count of the corpus that
    [BM25Okapi] averages. *)
Definition total_len (corpus : list (list token)) : nat :=
  fold_right (fun d n => (length d + n)%nat) 0%nat corpus.

(** Modelled from the spec: [BM25Okapi]'s avgdl, the "mean token-sequence
    length across the query's own candidate set". *)
Definition avgdl (corpus : list (list token)) : R :=
  INR (total_len corpus) / INR (length corpus).

(** Modelled from the spec: [BM25Okapi]'s
    idf(t) = ln((N - df(t) + 0.5) / (df(t) + 0.5) + 1), N the number of
    documents of the corpus. *)
Definition idf (corpus : list (list token)) (t : token) : R :=
  ln ((INR (length corpus) - INR (doc_freq corpus t) + 5 / 10)
      / (INR (doc_freq corpus t) + 5 / 10) + 1).

(** Modelled from the spec: one summand of [BM25Okapi]'s score,
    idf(t) * (tf * (k1 + 1)) / (tf + k1 * (1 - b + b * |d| / avgdl)). *)
Definition term_score (idf_t f dl avg : R) : R :=
  idf_t * (f * (k1 + 1)) / (f + k1 * (1 - b + b * dl / avg)).

(** Modelled from the spec: [BM25Okapi]'s per-document score as a function
    of the document's term frequencies [freq] and length [dl]: the sum of
    the summands over the query's token sequence. *)
Definition score_with (corpus : list (list token)) (query : list token)
    (freq : token -> nat) (dl : nat) : R :=
  Rsum (map (fun t => term_score (idf corpus t) (INR (freq t)) (INR dl)
                        (avgdl corpus)) query).

(** Modelled from the spec: [BM25Okapi]'s score of the document [d]. *)
Definition score_doc (corpus : list (list token)) (query d : list token) : R :=
  score_with corpus query (fun t => tf t d) (length d).

(** Modelled from the spec: [BM25Okapi(corpus).get_scores(query)], "one
    score per corpus entry, in corpus order". *)
Definition get_scores (corpus : list (list token)) (query : list token) : list R :=
  map (score_doc corpus query) corpus.

(** *** [bm25_feature], from the source; the scorer is a parameter. *)
Section Feature.

Variable scorer : list (list token) -> list token -> list R.

(** [series.reset_index(drop=True)[0]]: label 0 exists iff the selection
    has a row. *)
Definition at0 (docs : dataframe) : result (list token) :=
  match docs with
  | [] => Raise KeyError
  | r :: _ => Ok (clean_queries r)
  end.

(** One iteration of [for qid in tqdm(qids)]. *)
Definition step (clean_df : dataframe) (bm25_scores : list R) (q : Z)
  : result (list R) :=
  let docs := select_qid clean_df q in
  _ <- at0 docs ;;
  let corpus := map clean_passages docs in
  query <- at0 (select_qid clean_df q) ;;
  Ok (bm25_scores ++ scorer corpus query).

Fixpoint loop (clean_df : dataframe) (qids : list Z) (bm25_scores : list R)
  : result (list R) :=
  match qids with
  | [] => Ok bm25_scores
  | q :: qs => s <- step clean_df bm25_scores q ;; loop clean_df qs s
  end.

Definition bm25_feature (clean_df : dataframe) (qids : list Z) : result (list R) :=
  loop clean_df qids [].

(** [validation_data_sample['bm25'] = array]: the entries are paired with
    the rows by position; pandas refuses an array of another length. *)
Definition assign_column (df : dataframe) (a : list R) : result (list (row * R)) :=
  if (length a =? length df)%nat then Ok (combine df a) else Raise ValueError.

(** Row positions in the order in which [bm25_feature] emits their scores:
    for every qid of the list, the positions of its rows, in row order. *)
Definition positions_of (df : dataframe) (q : Z) : list nat :=
  map fst (filter (fun c => (qid (snd c) =? q)%Z) (combine (seq 0 (length df)) df)).

Definition emitted_positions (df : dataframe) (qids : list Z) : list nat :=
  flat_map (positions_of df) qids.

(** The score computed for the (query, passage) pair of the row at
    position [p]: the entry of that row in the block of its qid. *)
Definition own_score (df : dataframe) (p : nat) : R :=
  match nth_error df p with
  | None => 0
  | Some r =>
      let docs := select_qid df (qid r) in
      match docs with
      | [] => 0
      | r0 :: _ =>
          nth (Ranker.offset p (positions_of df (qid r)))
              (scorer (map clean_passages docs) (clean_queries r0)) 0
      end
  end.

(** The block of scores one iteration appends. *)
Definition block (df : dataframe) (q : Z) : list R :=
  match select_qid df q with
  | [] => []
  | r0 :: _ => scorer (map clean_passages (select_qid df q)) (clean_queries r0)
  end.

(** [validation_data_sample['bm25'] = bm25_feature(validation_data_sample,
    validation_qid)] *)
Definition bm25_column (df : dataframe) (qids : list Z) : result (list (row * R)) :=
  a <- bm25_feature df qids ;; assign_column df a.

(** The frame is the concatenation of its per-qid selections, taken in the
    order of the qid list. *)
Definition grouped_by (df : dataframe) (qids : list Z) : Prop :=
  df = flat_map (select_qid df) qids.

End Feature.

(** The script's feature: [bm25_feature] over [BM25Okapi]. *)
Definition bm25_okapi_feature : dataframe -> list Z -> result (list R) :=
  bm25_feature get_scores.

(** The query tokens the loop reads for a qid: those of the first row of
    the selection. *)
Definition query_of (df : dataframe) (q : Z) : list token :=
  match select_qid df q with
  | [] => []
  | r :: _ => clean_queries r
  end.

(** The corpus the loop builds for a qid. *)
Definition corpus_of (df : dataframe) (q : Z) : list (list token) :=
  map clean_passages (select_qid df q).

(** *** Sample inputs *)

(** A frame whose qids are interleaved: 1, 2, 1. *)
Definition interleaved : dataframe :=
  [ mkRow 0 1 ["a"%string] ["a"%string; "b"%string] 1 0;
    mkRow 1 2 ["c"%string] ["c"%string] 0 0;
    mkRow 2 1 ["a"%string] ["b"%string] 0 0 ].

(** A candidate set of four passages for the query [a b]: the first holds
    both tokens, the others hold [a] only; and the same set after one more
    occurrence of [a] is put in front of the first passage. *)
Definition query_ab : list token := ["a"%string; "b"%string].

Definition others : list (list token) :=
  [["a"%string]; ["a"%string]; ["a"%string]].

Definition doc_ab : list token := ["a"%string; "b"%string].

Definition doc_aab : list token := "a"%string :: doc_ab.

End BM25.

(** ** Mean NDCG *)

Module NDCG.

Local Open Scope R_scope.

(** [np.log2] *)
Definition log2 (x : R) : R := ln x / ln 2.

(** [df.sort_values(by='qid', inplace=True)] puts the rows in ascending
    qid.  pandas' default algorithm (quicksort) is not stable, so the call
    does not fix the order of the rows inside one qid: every arrangement
    [s] of the frame with [sorted_by_qid df s] (below) may be what the loop
    runs over.  [sort_values] is the one of these arrangements that keeps
    the rows of a qid in row order; it is used for the runs whose result
    does not depend on the order inside a qid, and the statements that do
    depend on it are made for every arrangement, through [ndcg_terms_on]
    and [mean_ndcg_on]. *)
Fixpoint insert_by_qid (r : row) (l : dataframe) : dataframe :=
  match l with
  | [] => [r]
  | y :: l' => if (qid r <=? qid y)%Z then r :: y :: l' else y :: insert_by_qid r l'
  end.

Definition sort_values (df : dataframe) : dataframe :=
  fold_right insert_by_qid [] df.

(** [df[df['relevancy']==1]] *)
Definition relevant (df : dataframe) : dataframe :=
  filter (fun r => (relevancy r =? 1)%Z) df.

(** [sum([1/np.log2(i + 1) for i in range(1, element + 1)])] *)
Definition idcg (element : nat) : R :=
  Rsum (map (fun i => 1 / log2 (INR i + 1)) (seq 1 element)).

(** The list [IDCG], one entry per element of [retrieved]. *)
Definition IDCG_of (retrieved : list nat) : list R := map idcg retrieved.

(** The discount the loop adds for a row of rank [i]: [1/np.log2(i+2)]. *)
Definition gain (i : Z) : R := 1 / log2 (IZR i + 2).

(** The variables of the loop over the relevant rows. *)
Record state : Type := mkState {
  done_qid : list Z;
  d : R;
  idx : nat;
  counter : nat;
  DCG : list R;
  NDCG : list R
}.

Definition init : state := mkState [] 0 0 0 [] [].

(** [row['qid'] not in done_qid and counter>0] *)
Definition new_query (st : state) (r : row) : bool :=
  negb (existsb (Z.eqb (qid r)) (done_qid st)) && (0 <? counter st)%nat.

(** One iteration of the loop; [IDCG[index]] raises past the end.  The
    quotient [d/IDCG[index]] is the real quotient: numpy's [inf] and [nan]
    for an IDCG entry 0 (a retrieved count of 0, which [mean_precision]
    never returns) or for a rank below 1 are outside the model. *)
Definition step (IDCG : list R) (st : state) (r : row) : result state :=
  let i := rank r in
  if new_query st r then
    match nth_error IDCG (idx st) with
    | None => Raise IndexError
    | Some k =>
        Ok (mkState (done_qid st ++ [qid r])
                    (0 + gain i)
                    (S (idx st))
                    (S (counter st))
                    (DCG st ++ [d st])
                    (NDCG st ++ [d st / k]))
    end
  else
    Ok (mkState (done_qid st) (d st + gain i) (idx st) (S (counter st))
                (DCG st) (NDCG st)).

Fixpoint loop (IDCG : list R) (rows : dataframe) (st : state) : result state :=
  match rows with
  | [] => Ok st
  | r :: rs => st' <- step IDCG st r ;; loop IDCG rs st'
  end.

(** [np.mean] of a list *)
Definition np_mean (l : list R) : float64 R :=
  match l with
  | [] => NaN
  | _ :: _ => Fin (Rsum l / INR (length l))
  end.

(** The list [NDCG] when the loop ends. *)
Definition ndcg_terms (df : dataframe) (retrieved : list nat) : result (list R) :=
  st <- loop (IDCG_of retrieved) (relevant (sort_values df)) init ;;
  Ok (NDCG st).

Definition mean_ndcg (df : dataframe) (retrieved : list nat) : result (float64 R) :=
  l <- ndcg_terms df retrieved ;;
  Ok (np_mean l).

(** *** Quantities used to describe the loop *)

(** What [d] accumulates over a run of rows. *)
Definition dcg (rows : dataframe) : R := Rsum (map (fun r => gain (rank r)) rows).

(** Maximal runs of adjacent rows with the same qid. *)
Fixpoint runs (rows : dataframe) : list dataframe :=
  match rows with
  | [] => []
  | r :: rs =>
      match runs rs with
      | (r' :: g) :: gs =>
          if (qid r =? qid r')%Z then (r :: r' :: g) :: gs
          else [r] :: (r' :: g) :: gs
      | _ => [[r]]
      end
  end.

(** The runs as the loop cuts them: the very first relevant row stands
    alone, because the loop does not put its qid in [done_qid]; the
    remaining rows fall into their maximal runs. *)
Definition chunks (rows : dataframe) : list dataframe :=
  match rows with
  | [] => []
  | r :: rest => [r] :: runs rest
  end.

(** Pairs every chunk with the IDCG entry of the same position. *)
Fixpoint ratios (cs : list dataframe) (IDCG : list R) : result (list R) :=
  match cs with
  | [] => Ok []
  | c :: cs' =>
      match IDCG with
      | [] => Raise IndexError
      | k :: IDCG' => l <- ratios cs' IDCG' ;; Ok (dcg c / k :: l)
      end
  end.

(** The order [sort_values] establishes. *)
Definition by_qid (a b : row) : Prop := (qid a <= qid b)%Z.

(** What [df.sort_values(by='qid')] guarantees of the frame [s] it leaves:
    the rows of [df], in ascending qid. *)
Definition sorted_by_qid (df s : dataframe) : Prop :=
  Permutation df s /\ StronglySorted by_qid s.

(** The list [NDCG] when the loop ends, for the frame [s] as the sort left
    it (lines 157-179). *)
Definition ndcg_terms_on (s : dataframe) (retrieved : list nat) : result (list R) :=
  st <- loop (IDCG_of retrieved) (relevant s) init ;;
  Ok (NDCG st).

(** [mean_ndcg] from the sorted frame [s] on (lines 157-180). *)
Definition mean_ndcg_on (s : dataframe) (retrieved : list nat) : result (float64 R) :=
  l <- ndcg_terms_on s retrieved ;;
  Ok (np_mean l).

(** The runs [gs] are what the loop meets after the qids of [done]: every
    run is one query, and no query comes back. *)
Fixpoint fresh (done : list Z) (gs : list dataframe) : Prop :=
  match gs with
  | [] => True
  | g :: gs' =>
      match g with
      | [] => False
      | r :: g' =>
          ~ In (qid r) done /\
          Forall (fun r' => qid r' = qid r) g' /\
          fresh (done ++ [qid r]) gs'
      end
  end.

(** *** The NDCG of the specification

    DCG = sum over the relevant rows of 1/log2(rank+1), IDCG = sum for i
    from 1 to K of 1/log2(i+1), NDCG = DCG / IDCG. *)
Definition spec_dcg (rows : dataframe) : R :=
  Rsum (map (fun r => 1 / log2 (IZR (rank r) + 1)) rows).

Definition spec_ndcg (df : dataframe) (q : Z) (K : nat) : R :=
  spec_dcg (relevant (select_qid df q)) / idcg K.

(** *** Sample frames *)

(** Two queries with one candidate each, relevant and of rank 1. *)
Definition two_queries : dataframe :=
  [ mkRow 0 1 [] [] 1 1; mkRow 1 2 [] [] 1 1 ].

(** One query with two candidates, both relevant, of ranks 1 and 2. *)
Definition one_query : dataframe :=
  [ mkRow 0 1 [] [] 1 1; mkRow 1 1 [] [] 1 2 ].

(** Query 1 as in [one_query], followed by a query 2 with one relevant
    candidate. *)
Definition split_frame : dataframe :=
  [ mkRow 0 1 [] [] 1 1; mkRow 1 1 [] [] 1 2; mkRow 2 2 [] [] 1 1 ].


(** Queries 1, 3 and 2 in this order of first appearance, so that the
    retrieved counts are [1; 1; 3]; query 2 has three candidates, the two
    relevant ones ranked first. *)
Definition out_of_step : dataframe :=
  [ mkRow 0 1 [] [] 1 1; mkRow 1 3 [] [] 1 1;
    mkRow 2 2 [] [] 1 1; mkRow 3 2 [] [] 1 2; mkRow 4 2 [] [] 0 3 ].

(** The frame [one_query] with its two rows exchanged. *)
Definition one_query_swapped : dataframe :=
  [ mkRow 1 1 [] [] 1 2; mkRow 0 1 [] [] 1 1 ].

(** The distinct qids of the relevant rows, in ascending order. *)
Definition queries_with_relevant (df : dataframe) : list Z :=
  map (fun g => match g with [] => 0%Z | r :: _ => qid r end)
      (runs (relevant (sort_values df))).

End NDCG.

(** ** Text cleaning *)

Module Text.

(** *** The substitution of [clean_and_save]

    [re.sub("[^A-Za-z']+", ' ', str(row)).lower()].  A text is the sequence
    of its UTF-8 bytes: every byte of a character outside ASCII is above
    127, so it is outside the class and falls in the same run as the
    character itself.  After the substitution only ASCII is left, on which
    [lower] changes the capital letters alone. *)

Definition code (c : ascii) : nat := nat_of_ascii c.

Definition is_upper (c : ascii) : bool := (65 <=? code c)%nat && (code c <=? 90)%nat.

Definition is_lower (c : ascii) : bool := (97 <=? code c)%nat && (code c <=? 122)%nat.

Definition is_apostrophe (c : ascii) : bool := (code c =? 39)%nat.

(** The class [A-Za-z'] *)
Definition kept (c : ascii) : bool := is_upper c || is_lower c || is_apostrophe c.

Definition space : ascii := " "%char.

(** Every maximal run of characters outside the class becomes one space;
    [in_run] tells that the space of the current run is already written. *)
Fixpoint re_sub (in_run : bool) (s : list ascii) : list ascii :=
  match s with
  | [] => []
  | c :: s' =>
      if kept c then c :: re_sub false s'
      else if in_run then re_sub true s'
      else space :: re_sub true s'
  end.

Definition lower_char (c : ascii) : ascii :=
  if is_upper c then ascii_of_nat (code c + 32) else c.

Definition lower (s : list ascii) : list ascii := map lower_char s.

Definition normalise (row : list ascii) : list ascii := lower (re_sub false row).

(** No two spaces in a row. *)
Fixpoint single_spaced (s : list ascii) : Prop :=
  match s with
  | [] => True
  | c :: s' =>
      match s' with
      | [] => True
      | c' :: _ => ~ (c = space /\ c' = space)
      end /\ single_spaced s'
  end.

(** *** [cleaning]

    A spaCy [Doc] is the list of its tokens, of which the function reads
    [lemma_] and [is_stop].  Characters are kept abstract, with
    [str.isspace] as a predicate on them. *)

Section Cleaning.

Variable char : Type.
Variable isspace : char -> bool.
(** the separator [' '] *)
Variable blank : char.

Record spacy_token : Type := mkToken {
  lemma_ : list char;
  is_stop : bool
}.

(** [[token.lemma_ for token in doc if not token.is_stop and len(token.lemma_) > 1]] *)
Definition txt (doc : list spacy_token) : list (list char) :=
  map lemma_
      (filter (fun t => negb (is_stop t) && (1 <? length (lemma_ t))%nat) doc).

(** [' '.join(txt)] *)
Fixpoint join (l : list (list char)) : list char :=
  match l with
  | [] => []
  | w :: l' =>
      match l' with
      | [] => w
      | _ :: _ => w ++ blank :: join l'
      end
  end.

(** [s.split()]: the maximal runs of characters that are not whitespace;
    [cur] is the run being read. *)
Fixpoint split_from (cur : list char) (s : list char) : list (list char) :=
  match s with
  | [] => match cur with [] => [] | _ :: _ => [cur] end
  | c :: s' =>
      if isspace c then
        match cur with
        | [] => split_from [] s'
        | _ :: _ => cur :: split_from [] s'
        end
      else split_from (cur ++ [c]) s'
  end.

Definition split (s : list char) : list (list char) := split_from [] s.

Definition cleaning (doc : list spacy_token) : list (list char) :=
  split (join (txt doc)).

(** Free of whitespace. *)
Definition nospace (w : list char) : Prop :=
  forallb (fun c => negb (isspace c)) w = true.

(** A word as [split] returns it: not empty, without whitespace. *)
Definition word (w : list char) : Prop := w <> [] /\ nospace w.

End Cleaning.

(** [clean_and_save] without the file it writes: the list [cleaned_text].
    [nlp] stands for the spaCy pipeline, which yields one [Doc] per text,
    in the order of the texts. *)
Definition clean_and_save (A char : Type) (isspace : char -> bool) (blank : char)
    (nlp : list ascii -> list (spacy_token char))
    (data : list A) (column : A -> list ascii) : list (list (list char)) :=
  map (fun r => cleaning isspace blank (nlp (normalise (column r)))) data.

End Text.

(** ** Clean text by id *)

Module Tables.

Section Columns.

(** The rows of a table, their id column (['qid'] or ['pid']), a text
    column and the cleaning of one text. *)
Variable A T V : Type.
Variable key : A -> Z.
Variable column : A -> T.
Variable cleaner : T -> V.

(** [df.drop_duplicates(subset=[key])]: the first row of every id, in row
    order. *)
Fixpoint drop_duplicates (df : list A) : list A :=
  match df with
  | [] => []
  | r :: df' =>
      r :: filter (fun r' => negb (key r' =? key r)%Z) (drop_duplicates df')
  end.

(** A Python dict, read through its lookups. *)
Definition dict : Type := Z -> option V.

Definition dict_empty : dict := fun _ => None.

Definition dict_set (d : dict) (k : Z) (v : V) : dict :=
  fun k' => if (k' =? k)%Z then Some v else d k'.

(** [dict(zip(keys, values))]: [zip] stops at the shorter list, and the
    pairs are entered from left to right. *)
Definition dict_zip (keys : list Z) (values : list V) : dict :=
  fold_left (fun d kv => dict_set d (fst kv) (snd kv)) (combine keys values)
            dict_empty.

(** [series.map(d)]: an id that is not in the dict gives NaN. *)
Definition series_map (d : dict) (s : list Z) : list (option V) := map d s.

(** The list of cleaned texts of a table, in row order. *)
Definition cleaned (data : list A) : list V :=
  map (fun r => cleaner (column r)) data.

(** The clean column of the validation frame and of the candidate
    passages: the ids are [df[key].unique()], the texts those of
    [df.drop_duplicates(subset=[key])]. *)
Definition clean_column (df : list A) : list (option V) :=
  series_map (dict_zip (unique (map key df)) (cleaned (drop_duplicates df)))
             (map key df).

(** The clean column of the training frame: the ids are read from the
    deduplicated frame itself. *)
Definition clean_column_train (df : list A) : list (option V) :=
  series_map (dict_zip (map key (drop_duplicates df))
                       (cleaned (drop_duplicates df)))
             (map key df).

(** The clean queries of the candidate passages: the ids are
    [test_queries[0].unique()], the texts those of all rows of
    [test_queries], and the lookups are the qids of another frame. *)
Definition clean_column_test (test_queries : list A) (qids : list Z)
  : list (option V) :=
  series_map (dict_zip (unique (map key test_queries)) (cleaned test_queries))
             qids.

End Columns.

End Tables.

(** * Properties *)

Unset Implicit Arguments.

(** ** Results *)

Lemma bind_assoc (A B C : Type) (c : result A) (f : A -> result B)
    (g : B -> result C) :
  bind (bind c f) g = bind c (fun x => bind (f x) g).
Proof. destruct c; reflexivity. Qed.

Lemma bind_ext (A B : Type) (c : result A) (f g : A -> result B) :
  (forall x, f x = g x) -> bind c f = bind c g.
Proof. intros H. destruct c; simpl; [apply H | reflexivity]. Qed.

Lemma bind_Ok (A : Type) (c : result A) : bind c Ok = c.
Proof. destruct c; reflexivity. Qed.

(** ** Lists with positions *)

Module ListFacts.

Local Open Scope nat_scope.

Lemma combine_seq_nth (A : Type) (l : list A) (a p : nat) (x : A) :
  In (p, x) (combine (seq a (length l)) l) ->
  a <= p /\ nth_error l (p - a) = Some x.
Proof.
  revert a. induction l as [|y l IH]; intros a H; simpl in H; [contradiction|].
  destruct H as [H|H].
  - inversion H; subst. rewrite Nat.sub_diag. split; [lia | reflexivity].
  - apply IH in H. destruct H as [Hle Hn]. split; [lia|].
    replace (p - a) with (S (p - S a)) by lia. exact Hn.
Qed.

Lemma map_nth_error_seq (A : Type) (l : list A) :
  map (nth_error l) (seq 0 (length l)) = map Some l.
Proof.
  induction l as [|x l IH]; simpl; [reflexivity|].
  f_equal. rewrite <- seq_shift, map_map. exact IH.
Qed.

Lemma filter_combine_snd (A : Type) (f : A -> bool) (l : list A) (a : nat) :
  map snd (filter (fun c => f (snd c)) (combine (seq a (length l)) l)) = filter f l.
Proof.
  revert a. induction l as [|x l IH]; intros a; simpl; [reflexivity|].
  destruct (f x); simpl; now rewrite IH.
Qed.

Lemma map_nth_seq (A : Type) (l : list A) (d : A) :
  map (fun i => nth i l d) (seq 0 (length l)) = l.
Proof.
  induction l as [|x l IH]; simpl; [reflexivity|].
  f_equal. rewrite <- seq_shift, map_map. exact IH.
Qed.

Lemma nth_error_combine (A B : Type) (l : list A) (l' : list B) (p : nat)
    (x : A) (y : B) :
  nth_error l p = Some x -> nth_error l' p = Some y ->
  nth_error (combine l l') p = Some (x, y).
Proof.
  revert l l'. induction p as [|p IH]; intros [|a l] [|b l']; simpl;
    try discriminate.
  - congruence.
  - apply IH.
Qed.

Lemma map_Some_inj (A : Type) (l l' : list A) :
  map Some l = map Some l' -> l = l'.
Proof.
  revert l'. induction l as [|x l IH]; intros [|y l'] H; simpl in H;
    try discriminate; [reflexivity|].
  inversion H. f_equal. now apply IH.
Qed.

(** Two lists of positions of the same length differ at some place. *)
Lemma differ_at (l l' : list nat) :
  length l = length l' -> l <> l' ->
  exists p x y, nth_error l p = Some x /\ nth_error l' p = Some y /\ x <> y.
Proof.
  revert l'. induction l as [|x l IH]; intros [|y l'] Hlen Hne; simpl in Hlen;
    try discriminate; [congruence|].
  destruct (Nat.eq_dec x y) as [->|Hxy].
  - destruct (IH l') as [p [u [v [H1 [H2 H3]]]]]; [lia | congruence |].
    exists (S p), u, v. auto.
  - exists 0, x, y. auto.
Qed.

Lemma filter_filter (A : Type) (f g : A -> bool) (l : list A) :
  filter f (filter g l) = filter (fun x => g x && f x) l.
Proof.
  induction l as [|x l IH]; simpl; [reflexivity|].
  destruct (g x); simpl; [destruct (f x)|]; now rewrite IH.
Qed.

Lemma filter_all (A : Type) (f : A -> bool) (l : list A) :
  (forall x, In x l -> f x = true) -> filter f l = l.
Proof.
  intros H. induction l as [|x l IH]; simpl; [reflexivity|].
  rewrite H by now left. f_equal. apply IH. intros; apply H; now right.
Qed.

Lemma flat_map_length_sum (A B C : Type) (f : A -> list B) (g : A -> list C)
    (l : list A) :
  (forall x, length (f x) = length (g x)) ->
  length (flat_map f l) = length (flat_map g l).
Proof.
  intros H. induction l as [|x l IH]; simpl; [reflexivity|].
  now rewrite !length_app, H, IH.
Qed.

Lemma filter_none (A : Type) (f : A -> bool) (l : list A) :
  (forall x, In x l -> f x = false) -> filter f l = [].
Proof.
  intros H. induction l as [|x l IH]; simpl; [reflexivity|].
  rewrite H by now left. apply IH. intros; apply H; now right.
Qed.

Lemma filter_orb_length (A : Type) (f g : A -> bool) (l : list A) :
  (forall x, In x l -> f x = true -> g x = false) ->
  length (filter (fun x => f x || g x) l)
  = length (filter f l) + length (filter g l).
Proof.
  intros H. induction l as [|x l IH]; simpl; [reflexivity|].
  assert (IH' := IH (fun y Hy => H y (or_intror Hy))).
  destruct (f x) eqn:Ef; simpl.
  - rewrite (H x (or_introl eq_refl) Ef). simpl. now rewrite IH'.
  - destruct (g x); simpl; rewrite IH'; lia.
Qed.

End ListFacts.

(** ** Mean precision *)

Module PrecisionFacts.
Import Precision.

Lemma true_divide_pos (a n : nat) :
  n <> 0%nat -> true_divide a n = Ok (Z.of_nat a # Pos.of_nat n).
Proof. destruct n; [congruence | reflexivity]. Qed.

Lemma top100_nil (df : dataframe) (q : Z) :
  select_qid df q = [] -> top100 df q = [].
Proof. unfold top100. intros ->. reflexivity. Qed.

Lemma top100_length (df : dataframe) (q : Z) :
  length (top100 df q) = Nat.min 100 (candidates df q).
Proof.
  unfold top100, candidates. rewrite length_map, length_firstn. reflexivity.
Qed.

Lemma top100_not_nil (df : dataframe) (q : Z) :
  select_qid df q <> [] -> length (top100 df q) <> 0%nat.
Proof.
  intros H. rewrite top100_length. unfold candidates.
  destruct (select_qid df q); [congruence | simpl; lia].
Qed.

(** The loop on a list of qids that all have candidates. *)
Lemma precision_loop_ok (df : dataframe) (qids : list Z) :
  (forall q, In q qids -> select_qid df q <> []) ->
  forall a,
    loop df qids a =
    Ok (mkAcc (precision_per_qid a ++ map (precision_of df) qids)
              (retrieved a ++ map (fun q => length (top100 df q)) qids)).
Proof.
  induction qids as [|q qs IH]; intros Hne a; simpl.
  - rewrite !app_nil_r. destruct a; reflexivity.
  - unfold step. rewrite true_divide_pos by (apply top100_not_nil, Hne; now left).
    simpl. rewrite IH by (intros; apply Hne; now right). simpl.
    rewrite <- !app_assoc. reflexivity.
Qed.

(** The loop stops with [ZeroDivisionError] at the first qid without
    candidates. *)
Lemma precision_loop_raises (df : dataframe) (qids : list Z) (q : Z) :
  In q qids -> select_qid df q = [] ->
  forall a, loop df qids a = Raise ZeroDivisionError.
Proof.
  induction qids as [|q' qs IH]; intros Hin Hq a; [contradiction|].
  simpl. unfold step.
  destruct (length (top100 df q')) eqn:E; simpl; [reflexivity|].
  destruct Hin as [->|Hin].
  - rewrite (top100_nil _ _ Hq) in E. discriminate.
  - now apply IH.
Qed.

(** On qids that all have candidates, [mean_precision] is the mean of the
    per-query quotients and returns the sizes min(100, candidates). *)
Lemma mean_precision_ok (df : dataframe) (qids : list Z) :
  (forall q, In q qids -> select_qid df q <> []) ->
  mean_precision df qids =
  Ok (np_mean (map (precision_of df) qids), map (K_of df) qids).
Proof.
  intros H. unfold mean_precision. rewrite (precision_loop_ok _ _ H). simpl.
  f_equal. f_equal. apply map_ext. intros q. apply top100_length.
Qed.

(** *** Where the loop and the specification agree *)

Lemma index_inj (df : dataframe) (r r' : row) :
  NoDup (map index df) -> In r df -> In r' df -> index r = index r' -> r = r'.
Proof.
  induction df as [|x df IH]; intros Hnd Hr Hr' E; [contradiction|].
  simpl in Hnd. inversion Hnd as [|? ? Hx Hnd']; subst.
  destruct Hr as [->|Hr], Hr' as [->|Hr']; auto.
  - exfalso. apply Hx. rewrite E. now apply in_map.
  - exfalso. apply Hx. rewrite <- E. now apply in_map.
Qed.

Lemma isin_select (df : dataframe) (q : Z) (r : row) :
  NoDup (map index df) -> In r df ->
  isin (map index (select_qid df q)) r = (qid r =? q)%Z.
Proof.
  intros Hnd Hr. unfold isin.
  destruct (qid r =? q)%Z eqn:E.
  - apply existsb_exists. exists (index r). split; [|apply Z.eqb_refl].
    apply in_map. unfold select_qid. apply filter_In. auto.
  - destruct (existsb (Z.eqb (index r)) (map index (select_qid df q))) eqn:Ex;
      [|reflexivity].
    apply existsb_exists in Ex. destruct Ex as [i [Hi Ei]].
    apply Z.eqb_eq in Ei. subst i. apply in_map_iff in Hi.
    destruct Hi as [r' [Ei Hr']]. unfold select_qid in Hr'.
    apply filter_In in Hr'. destruct Hr' as [Hr' Eq].
    assert (r' = r) by (apply (index_inj df); auto). subst r'. congruence.
Qed.

(** For a query with at most 100 candidates whose ranks do not exceed
    their number, in a frame with distinct index labels, the quotient the
    loop appends is the precision of the specification. *)
Lemma precision_agrees_up_to_100 (df : dataframe) (q : Z) :
  NoDup (map index df) ->
  (candidates df q <= 100)%nat ->
  (forall r, In r (select_qid df q) -> (rank r <= Z.of_nat (candidates df q))%Z) ->
  precision_of df q = spec_precision df q.
Proof.
  intros Hnd Hle Hrank. unfold precision_of, spec_precision.
  assert (HK : K_of df q = candidates df q) by (unfold K_of; lia).
  assert (Htop : top100 df q = map index (select_qid df q)).
  { unfold top100. now rewrite firstn_all2. }
  assert (Hall : top_ranked df q = select_qid df q).
  { unfold top_ranked. apply ListFacts.filter_all. intros r Hr. rewrite HK.
    apply Z.leb_le. now apply Hrank. }
  rewrite Hall, HK, Htop, length_map. fold (candidates df q).
  f_equal. f_equal. unfold overlap_count.
  unfold select_qid at 2. rewrite ListFacts.filter_filter.
  f_equal. apply filter_ext_in. intros r Hr.
  rewrite (isin_select df q r Hnd Hr). apply andb_comm.
Qed.

(** C1, at the failing input: one query with 101 candidates whose only
    relevant row is the last one in row order and holds rank 1.  The code
    looks at the first 100 rows in row order and returns the precision 0;
    the precision over the 100 top-ranked rows is 1/100. *)
Theorem mean_precision_head_not_top_ranked :
  exists p,
    mean_precision frame101 [7%Z] = Ok (Fin p, [100%nat]) /\
    p == 0 /\
    spec_precision frame101 7 == 1 # 100 /\
    ~ p == spec_precision frame101 7.
Proof.
  eexists. split; [vm_compute; reflexivity|].
  split; [reflexivity|]. split; [reflexivity|]. vm_compute. discriminate.
Qed.

(** C8, counterexample: qid 5 has no row in the frame, and the call raises
    instead of skipping it. *)
Lemma mean_precision_empty_query_not_skipped :
  let df := [mkRow 0 1 [] [] 1 1] in
  select_qid df 5 = [] /\
  mean_precision df [1%Z; 5%Z] = Raise ZeroDivisionError /\
  (exists p, mean_precision df [1%Z] = Ok (Fin p, [1%nat])).
Proof.
  split; [reflexivity|]. split; [reflexivity|].
  eexists. vm_compute. reflexivity.
Qed.

(** C8, amended: a qid whose candidate set is empty makes [mean_precision]
    raise [ZeroDivisionError]: the query is not skipped. *)
Theorem mean_precision_empty_query_raises (df : dataframe) (qids : list Z) (q : Z) :
  In q qids -> select_qid df q = [] ->
  mean_precision df qids = Raise ZeroDivisionError.
Proof.
  intros Hin Hq. unfold mean_precision.
  rewrite (precision_loop_raises _ _ _ Hin Hq). reflexivity.
Qed.

Lemma mean_precision_empty_query_raises_witness :
  In 5%Z [1%Z; 5%Z] /\ select_qid [mkRow 0 1 [] [] 1 1] 5 = [] /\
  mean_precision [mkRow 0 1 [] [] 1 1] [1%Z; 5%Z] = Raise ZeroDivisionError.
Proof.
  split; [simpl; auto|]. split; [reflexivity|].
  apply (mean_precision_empty_query_raises [mkRow 0 1 [] [] 1 1] [1%Z; 5%Z] 5%Z).
  - simpl; auto.
  - reflexivity.
Defined.

End PrecisionFacts.

(** ** The ranking step *)

Module RankerFacts.
Import Ranker.

Section Rank.

Variable score : Type.
Variable ltb : score -> score -> bool.

(** [ltb] is the strict part of a total preorder. *)
Hypothesis ltb_asym : forall a b, ltb a b = true -> ltb b a = false.
Hypothesis geb_trans :
  forall a b c, ltb a b = false -> ltb b c = false -> ltb a c = false.

Local Open Scope nat_scope.

Lemma ltb_irrefl (a : score) : ltb a a = false.
Proof.
  destruct (ltb a a) eqn:E; [|reflexivity].
  pose proof (ltb_asym _ _ E). congruence.
Qed.

(** *** Positions of the cells *)

Lemma cells_pos_inj (rows : list (Z * score)) (c c' : cell score) :
  In c (cells rows) -> In c' (cells rows) -> pos c = pos c' -> c = c'.
Proof.
  unfold cells. destruct c as [p x], c' as [p' x']. simpl. intros H H' E. subst p'.
  apply ListFacts.combine_seq_nth in H. apply ListFacts.combine_seq_nth in H'.
  destruct H as [_ H], H' as [_ H']. congruence.
Qed.

Lemma combine_seq_ascending (l : list (Z * score)) (a : nat) :
  StronglySorted (@before score) (combine (seq a (length l)) l).
Proof.
  revert a. induction l as [|y l IH]; intros a; simpl; constructor.
  - apply IH.
  - apply Forall_forall. intros [p x] H. apply ListFacts.combine_seq_nth in H.
    unfold before, pos. simpl. lia.
Qed.

Lemma filter_ascending (f : cell score -> bool) (l : list (cell score)) :
  StronglySorted (@before score) l -> StronglySorted (@before score) (filter f l).
Proof.
  induction 1 as [|x l Hs IH Hx]; simpl; [constructor|].
  destruct (f x); [constructor|]; auto.
  apply Forall_forall. intros y Hy. apply filter_In in Hy.
  rewrite Forall_forall in Hx. now apply Hx.
Qed.

Lemma group_ascending (rows : list (Z * score)) (q : Z) :
  StronglySorted (@before score) (group rows q).
Proof. apply filter_ascending, combine_seq_ascending. Qed.

Lemma ascending_NoDup (l : list (cell score)) :
  StronglySorted (@before score) l -> NoDup (map (@pos score) l).
Proof.
  induction 1 as [|x l Hs IH Hx]; simpl; constructor; auto.
  intros Hin. apply in_map_iff in Hin. destruct Hin as [y [E Hy]].
  rewrite Forall_forall in Hx. apply Hx in Hy. unfold before in Hy. lia.
Qed.

Lemma group_In_cells (rows : list (Z * score)) (q : Z) (c : cell score) :
  In c (group rows q) -> In c (cells rows) /\ key c = q.
Proof.
  unfold group. rewrite filter_In. intros [H E]. split; [exact H|].
  now apply Z.eqb_eq.
Qed.

(** *** The stable sort *)

Lemma insert_perm (x : cell score) (l : list (cell score)) :
  Permutation (insert ltb x l) (x :: l).
Proof.
  induction l as [|y l IH]; simpl; [reflexivity|].
  destruct (ltb (val x) (val y)); [|reflexivity].
  rewrite IH. apply perm_swap.
Qed.

Lemma sort_desc_perm (l : list (cell score)) : Permutation (sort_desc ltb l) l.
Proof.
  induction l as [|x l IH]; simpl; [reflexivity|].
  rewrite insert_perm. now constructor.
Qed.

Lemma insert_sorted (x : cell score) (l : list (cell score)) :
  StronglySorted (prec ltb) l -> Forall (before x) l ->
  StronglySorted (prec ltb) (insert ltb x l).
Proof.
  induction 1 as [|y l Hs IH Hy]; intros Hx; simpl.
  - constructor; constructor.
  - inversion Hx as [|? ? Hxy Hxl]; subst.
    destruct (ltb (val x) (val y)) eqn:E.
    + constructor; [now apply IH|].
      apply Forall_forall. intros z Hz.
      apply (Permutation_in _ (insert_perm x l)) in Hz. destruct Hz as [<-|Hz].
      * split; [now apply ltb_asym | congruence].
      * rewrite Forall_forall in Hy. now apply Hy.
    + constructor; [now constructor|].
      constructor; [split; auto|].
      apply Forall_forall. intros z Hz.
      rewrite Forall_forall in Hy, Hxl. split.
      * apply geb_trans with (val y); [exact E | apply (Hy z Hz)].
      * intros _. now apply Hxl.
Qed.

Lemma sort_desc_sorted (l : list (cell score)) :
  StronglySorted (@before score) l -> StronglySorted (prec ltb) (sort_desc ltb l).
Proof.
  induction 1 as [|x l Hs IH Hx]; simpl; [constructor|].
  apply insert_sorted; [exact IH|].
  apply (Permutation_Forall (Permutation_sym (sort_desc_perm l)) Hx).
Qed.

(** *** Offsets and ranks *)

Lemma offset_self (L : list nat) :
  NoDup L -> map (fun p => offset p L) L = seq 0 (length L).
Proof.
  induction 1 as [|x L Hx Hnd IH]; simpl; [reflexivity|].
  rewrite Nat.eqb_refl. f_equal.
  rewrite <- seq_shift, <- IH, map_map.
  apply map_ext_in. intros p Hp.
  destruct (x =? p) eqn:E; [|reflexivity].
  apply Nat.eqb_eq in E. subst. contradiction.
Qed.

Lemma offset_zero (p : nat) (L : list nat) :
  In p L -> offset p L = 0 -> exists L', L = p :: L'.
Proof.
  destruct L as [|x L]; simpl; [contradiction|].
  intros _. destruct (x =? p) eqn:E; [|discriminate].
  apply Nat.eqb_eq in E. subst. eauto.
Qed.

(** In a list sorted by [prec], a cell that is not preceded by another one
    has the smaller offset. *)
Lemma offset_sorted (l : list (cell score)) (c c' : cell score) :
  StronglySorted (prec ltb) l -> NoDup (map (@pos score) l) ->
  In c l -> In c' l -> pos c < pos c' -> val c = val c' ->
  offset (pos c) (map (@pos score) l) < offset (pos c') (map (@pos score) l).
Proof.
  intros Hs. induction Hs as [|x l Hs IH Hx]; intros Hnd Hc Hc' Hlt Hv;
    [contradiction|].
  simpl in *. inversion Hnd as [|? ? Hnx Hnd']; subst.
  assert (Hhead : forall e, In e l -> pos x <> pos e).
  { intros e He Heq. apply Hnx. rewrite Heq. now apply in_map. }
  destruct (pos x =? pos c) eqn:Ec.
  - apply Nat.eqb_eq in Ec.
    destruct (pos x =? pos c') eqn:Ec'; [apply Nat.eqb_eq in Ec'; lia | lia].
  - apply Nat.eqb_neq in Ec.
    destruct Hc as [->|Hc]; [congruence|].
    destruct (pos x =? pos c') eqn:Ec'.
    + apply Nat.eqb_eq in Ec'.
      destruct Hc' as [->|Hc']; [|now apply Hhead in Hc'].
      rewrite Forall_forall in Hx. destruct (Hx c Hc) as [_ Hpos].
      rewrite Hv in Hpos. specialize (Hpos (ltb_irrefl _)). lia.
    + apply Nat.eqb_neq in Ec'.
      destruct Hc' as [->|Hc']; [congruence|].
      apply -> Nat.succ_lt_mono. now apply IH.
Qed.

Lemma rank_of_group (rows : list (Z * score)) (q : Z) (c : cell score) :
  In c (group rows q) ->
  rank_of ltb rows c =
  Z.of_nat (S (offset (pos c) (map (@pos score) (sort_desc ltb (group rows q))))).
Proof.
  intros H. apply group_In_cells in H. destruct H as [_ <-]. reflexivity.
Qed.

Lemma sorted_group_NoDup (rows : list (Z * score)) (q : Z) :
  NoDup (map (@pos score) (sort_desc ltb (group rows q))).
Proof.
  apply (Permutation_NoDup
           (Permutation_map _ (Permutation_sym (sort_desc_perm (group rows q))))).
  apply ascending_NoDup, group_ascending.
Qed.

Lemma ranks_of_query_perm (rows : list (Z * score)) (q : Z) :
  Permutation (ranks_of_query ltb rows q)
              (map Z.of_nat (seq 1 (length (group rows q)))).
Proof.
  unfold ranks_of_query.
  set (L := map (@pos score) (sort_desc ltb (group rows q))).
  rewrite (map_ext_in _ (fun c => Z.of_nat (S (offset (pos c) L))))
    by (intros c Hc; now apply rank_of_group).
  rewrite <- seq_shift.
  replace (length (group rows q)) with (length L)
    by (unfold L; rewrite length_map; apply Permutation_length, sort_desc_perm).
  rewrite <- (offset_self L) by apply sorted_group_NoDup.
  rewrite !map_map.
  change (fun c : cell score => Z.of_nat (S (offset (pos c) L)))
    with (fun c : cell score => (fun p => Z.of_nat (S (offset p L))) (pos c)).
  rewrite <- (map_map (@pos score) (fun p => Z.of_nat (S (offset p L)))).
  apply Permutation_map. unfold L. apply Permutation_map.
  apply Permutation_sym, sort_desc_perm.
Qed.

Lemma rank_one_maximal (rows : list (Z * score)) (q : Z) (c c' : cell score) :
  In c (group rows q) -> In c' (group rows q) ->
  rank_of ltb rows c = 1%Z -> ltb (val c) (val c') = false.
Proof.
  intros Hc Hc' Hr. rewrite (rank_of_group _ _ _ Hc) in Hr.
  assert (Ho : offset (pos c) (map (@pos score) (sort_desc ltb (group rows q))) = 0)
    by lia.
  pose proof (sort_desc_perm (group rows q)) as Hp.
  pose proof (sort_desc_sorted _ (group_ascending rows q)) as Hs.
  assert (Hin : In c (sort_desc ltb (group rows q)))
    by (apply (Permutation_in _ (Permutation_sym Hp)); exact Hc).
  assert (Hin' : In c' (sort_desc ltb (group rows q)))
    by (apply (Permutation_in _ (Permutation_sym Hp)); exact Hc').
  destruct (sort_desc ltb (group rows q)) as [|x l] eqn:E; [contradiction|].
  simpl in Ho. destruct (pos x =? pos c) eqn:Ex; [|discriminate].
  apply Nat.eqb_eq in Ex.
  assert (x = c).
  { apply (cells_pos_inj rows); [| |exact Ex].
    - apply (group_In_cells rows q). apply (Permutation_in _ Hp). now left.
    - now apply (group_In_cells rows q). }
  subst x. inversion Hs as [|? ? _ Hx]; subst.
  destruct Hin' as [<-|Hin']; [apply ltb_irrefl|].
  rewrite Forall_forall in Hx. apply (Hx c' Hin').
Qed.

Lemma ties_by_row_order (rows : list (Z * score)) (q : Z) (c c' : cell score) :
  In c (group rows q) -> In c' (group rows q) ->
  pos c < pos c' -> val c = val c' ->
  (rank_of ltb rows c < rank_of ltb rows c')%Z.
Proof.
  intros Hc Hc' Hlt Hv.
  rewrite (rank_of_group _ _ _ Hc), (rank_of_group _ _ _ Hc').
  pose proof (sort_desc_perm (group rows q)) as Hp.
  apply inj_lt. apply -> Nat.succ_lt_mono.
  apply offset_sorted; auto.
  - apply sort_desc_sorted, group_ascending.
  - apply sorted_group_NoDup.
  - apply (Permutation_in _ (Permutation_sym Hp)); exact Hc.
  - apply (Permutation_in _ (Permutation_sym Hp)); exact Hc'.
Qed.

End Rank.


Lemma Rltb_asym (a b : R) : Rltb a b = true -> Rltb b a = false.
Proof.
  unfold Rltb. destruct (Rlt_dec a b), (Rlt_dec b a); try reflexivity; try discriminate.
  intros _. exfalso. apply (Rlt_asym a b); assumption.
Qed.

Lemma Rgeb_trans (a b c : R) :
  Rltb a b = false -> Rltb b c = false -> Rltb a c = false.
Proof.
  unfold Rltb. destruct (Rlt_dec a b), (Rlt_dec b c), (Rlt_dec a c);
    try reflexivity; try discriminate.
  intros _ _. exfalso. apply Rnot_lt_le in n, n0.
  apply (Rlt_irrefl a). apply Rlt_le_trans with c; [assumption|].
  now apply Rle_trans with b.
Qed.

Example sample_ranks : rank_column Z.ltb sample_scores = [3; 1; 1; 2]%Z.
Proof. reflexivity. Qed.

(** *** The column the script assigns *)

Lemma nth_error_cells (A : Type) (l : list A) (a i : nat) :
  nth_error (combine (seq a (length l)) l) i
  = option_map (fun x => ((a + i)%nat, x)) (nth_error l i).
Proof.
  revert a i. induction l as [|x l IH]; intros a [|i]; simpl; try reflexivity.
  - now rewrite Nat.add_0_r.
  - rewrite IH. destruct (nth_error l i); simpl; [|reflexivity].
    now rewrite Nat.add_succ_r.
Qed.

Lemma rank_step_length (df : list (row * R)) :
  length (rank_step df) = length df.
Proof.
  unfold rank_step, rank_column, cells.
  rewrite !length_map. unfold cell.
  rewrite length_combine, length_seq, length_map. apply Nat.min_id.
Qed.

(** The ranks paired by place with the rows of one query are the ranks of
    the cells of its group. *)
Lemma ranks_of_rows (q : Z) (f : cell R -> Z) (df : list (row * R)) (a : nat) :
  map snd
      (filter (fun x : row * R * Z => (qid (fst (fst x)) =? q)%Z)
              (combine df
                 (map f (combine (seq a (length df))
                                 (map (fun x : row * R => (qid (fst x), snd x)) df)))))
  = map f (filter (fun c : cell R => (key c =? q)%Z)
                  (combine (seq a (length df))
                           (map (fun x : row * R => (qid (fst x), snd x)) df))).
Proof.
  revert a. induction df as [|[r s] df IH]; intros a; [reflexivity|].
  cbn [length seq map combine filter fst snd].
  change (key (a, (qid r, s))) with (qid r).
  destruct (qid r =? q)%Z; cbn [map snd]; now rewrite IH.
Qed.

Lemma rows_of_query_count (q : Z) (df : list (row * R)) (a : nat) :
  length (filter (fun x : row * R => (qid (fst x) =? q)%Z) df)
  = length (filter (fun c : cell R => (key c =? q)%Z)
                   (combine (seq a (length df))
                            (map (fun x : row * R => (qid (fst x), snd x)) df))).
Proof.
  revert a. induction df as [|[r s] df IH]; intros a; [reflexivity|].
  cbn [length seq map combine filter fst snd].
  change (key (a, (qid r, s))) with (qid r).
  destruct (qid r =? q)%Z; cbn [length]; now rewrite (IH (S a)).
Qed.

(** The cell of a row of the frame, and the rank the step gives it. *)
Lemma rank_step_at (df : list (row * R)) (i : nat) (r : row) (s : R) (k : Z) :
  nth_error df i = Some (r, s) ->
  nth_error (rank_step df) i = Some k ->
  let rows := map (fun x : row * R => (qid (fst x), snd x)) df in
  In (i, (qid r, s)) (group rows (qid r)) /\
  k = rank_of Rltb rows (i, (qid r, s)).
Proof.
  intros Hi Hk rows.
  assert (Hc : nth_error (cells rows) i = Some (i, (qid r, s))).
  { pose proof (nth_error_cells _ rows 0 i) as H.
    replace (nth_error rows i) with (Some (qid r, s)) in H
      by (unfold rows; now rewrite nth_error_map, Hi).
    exact H. }
  split.
  - unfold group. apply filter_In. split; [now apply nth_error_In in Hc|].
    apply Z.eqb_refl.
  - unfold rank_step, rank_column in Hk. fold rows in Hk.
    rewrite nth_error_map, Hc in Hk. simpl in Hk. congruence.
Qed.

(** C3: the column of ranks has the length of the frame; for a query with
    N candidate rows the ranks assigned to its rows are a permutation of
    1..N; a row of rank 1 has a score that no row of the query exceeds; and
    of two rows of the query with the same score the one that comes first
    in the frame gets the smaller rank. *)
Theorem rank_step_permutation_max_stable (df : list (row * R)) (q : Z) :
  length (rank_step df) = length df /\
  Permutation
    (map snd (filter (fun x : row * R * Z => (qid (fst (fst x)) =? q)%Z)
                     (combine df (rank_step df))))
    (map Z.of_nat
         (seq 1 (length (filter (fun x : row * R => (qid (fst x) =? q)%Z) df)))) /\
  (forall i j ri si rj sj ki kj,
      nth_error df i = Some (ri, si) -> nth_error df j = Some (rj, sj) ->
      qid ri = q -> qid rj = q ->
      nth_error (rank_step df) i = Some ki ->
      nth_error (rank_step df) j = Some kj ->
      (ki = 1%Z -> (sj <= si)%R) /\
      ((i < j)%nat -> si = sj -> (ki < kj)%Z)).
Proof.
  split; [apply rank_step_length|]. split.
  - unfold rank_step, rank_column, cells. rewrite length_map.
    rewrite (ranks_of_rows q _ df 0), (rows_of_query_count q df 0).
    pose proof (ranks_of_query_perm R Rltb
                  (map (fun x : row * R => (qid (fst x), snd x)) df) q) as H.
    unfold ranks_of_query, group, cells in H. rewrite length_map in H. exact H.
  - intros i j ri si rj sj ki kj Hi Hj Hqi Hqj Hki Hkj.
    destruct (rank_step_at df i ri si ki Hi Hki) as [Hci ->].
    destruct (rank_step_at df j rj sj kj Hj Hkj) as [Hcj ->].
    rewrite Hqi in Hci. rewrite Hqj in Hcj. rewrite Hqi, Hqj. split.
    + intros H1.
      pose proof (rank_one_maximal R Rltb Rltb_asym Rgeb_trans _ q _ _ Hci Hcj H1)
        as Hm.
      unfold val, Rltb in Hm. simpl in Hm.
      destruct (Rlt_dec si sj); [discriminate | now apply Rnot_lt_le].
    + intros Hlt Hs.
      apply (ties_by_row_order R Rltb Rltb_asym Rgeb_trans _ q _ _ Hci Hcj);
        [exact Hlt | exact Hs].
Qed.

Lemma rank_step_permutation_max_stable_witness :
  exists ki kj,
    nth_error sample_frame 1 = Some (mkRow 1 1 [] [] 0 0, 7%R) /\
    nth_error sample_frame 3 = Some (mkRow 3 1 [] [] 0 0, 7%R) /\
    nth_error (rank_step sample_frame) 1 = Some ki /\
    nth_error (rank_step sample_frame) 3 = Some kj /\
    (ki < kj)%Z.
Proof.
  eexists. eexists.
  assert (H1 : nth_error sample_frame 1 = Some (mkRow 1 1 [] [] 0 0, 7%R))
    by reflexivity.
  assert (H3 : nth_error sample_frame 3 = Some (mkRow 3 1 [] [] 0 0, 7%R))
    by reflexivity.
  split; [exact H1|]. split; [exact H3|].
  split; [reflexivity|]. split; [reflexivity|].
  refine (proj2 (proj2 (proj2 (rank_step_permutation_max_stable sample_frame 1%Z))
                       1%nat 3%nat _ _ _ _ _ _ H1 H3 eq_refl eq_refl
                       eq_refl eq_refl) _ eq_refl).
  lia.
Defined.

End RankerFacts.

(** ** The BM25 feature *)

Module FeatureFacts.
Import BM25.

Local Open Scope nat_scope.

Section Feature.

Variable scorer : list (list token) -> list token -> list R.

Lemma feature_step_ok (df : dataframe) (acc : list R) (q : Z) :
  select_qid df q <> [] ->
  step scorer df acc q = Ok (acc ++ block scorer df q).
Proof.
  unfold step, block. destruct (select_qid df q) as [|r0 docs] eqn:E;
    [congruence | reflexivity].
Qed.

Lemma feature_step_raises (df : dataframe) (acc : list R) (q : Z) :
  select_qid df q = [] -> step scorer df acc q = Raise KeyError.
Proof. unfold step. intros ->. reflexivity. Qed.

Lemma feature_loop_ok (df : dataframe) (qids : list Z) :
  (forall q, In q qids -> select_qid df q <> []) ->
  forall acc, loop scorer df qids acc = Ok (acc ++ flat_map (block scorer df) qids).
Proof.
  induction qids as [|q qs IH]; intros Hne acc; simpl.
  - now rewrite app_nil_r.
  - rewrite feature_step_ok by (apply Hne; now left). simpl.
    rewrite IH by (intros; apply Hne; now right).
    now rewrite app_assoc.
Qed.

Lemma feature_loop_raises (df : dataframe) (qids : list Z) (q : Z) :
  In q qids -> select_qid df q = [] ->
  forall acc, loop scorer df qids acc = Raise KeyError.
Proof.
  induction qids as [|q' qs IH]; intros Hin Hq acc; [contradiction|].
  simpl. destruct (select_qid df q') as [|r0 docs] eqn:E.
  - now rewrite feature_step_raises.
  - rewrite feature_step_ok by congruence. simpl.
    destruct Hin as [->|Hin]; [congruence | now apply IH].
Qed.

Lemma bm25_feature_ok (df : dataframe) (qids : list Z) :
  (forall q, In q qids -> select_qid df q <> []) ->
  bm25_feature scorer df qids = Ok (flat_map (block scorer df) qids).
Proof. intros H. unfold bm25_feature. now rewrite feature_loop_ok. Qed.

Lemma bm25_feature_raises (df : dataframe) (qids : list Z) (q : Z) :
  In q qids -> select_qid df q = [] ->
  bm25_feature scorer df qids = Raise KeyError.
Proof. intros. unfold bm25_feature. eapply feature_loop_raises; eauto. Qed.

(** *** Where the emitted scores come from *)

Lemma positions_of_rows (df : dataframe) (q : Z) :
  map (nth_error df) (positions_of df q) = map Some (select_qid df q).
Proof.
  unfold positions_of, select_qid.
  rewrite <- (ListFacts.filter_combine_snd _ (fun r => (qid r =? q)%Z) df 0).
  rewrite !map_map. apply map_ext_in. intros [p r] H.
  apply filter_In in H. destruct H as [H _].
  apply ListFacts.combine_seq_nth in H. destruct H as [_ H].
  simpl. now rewrite Nat.sub_0_r in H.
Qed.

Lemma positions_of_length (df : dataframe) (q : Z) :
  length (positions_of df q) = length (select_qid df q).
Proof.
  rewrite <- (length_map (nth_error df)), positions_of_rows. apply length_map.
Qed.

Lemma positions_of_qid (df : dataframe) (q : Z) (p : nat) :
  In p (positions_of df q) ->
  exists r, nth_error df p = Some r /\ qid r = q.
Proof.
  unfold positions_of. intros H. apply in_map_iff in H.
  destruct H as [[p' r] [E H]]. simpl in E. subst p'.
  apply filter_In in H. destruct H as [H Hq]. simpl in Hq.
  apply ListFacts.combine_seq_nth in H. destruct H as [_ H].
  rewrite Nat.sub_0_r in H. exists r. split; [exact H | now apply Z.eqb_eq].
Qed.

Lemma positions_of_NoDup (df : dataframe) (q : Z) : NoDup (positions_of df q).
Proof.
  unfold positions_of.
  assert (H : forall (l : dataframe) a,
             NoDup (map fst (filter (fun c : nat * row => (qid (snd c) =? q)%Z)
                                    (combine (seq a (length l)) l)))).
  { induction l as [|x l IH]; intros a; simpl; [constructor|].
    destruct (qid x =? q)%Z; simpl; [|apply IH].
    constructor; [|apply IH].
    intros Hin. apply in_map_iff in Hin. destruct Hin as [[p r] [E Hin]].
    simpl in E. subst p. apply filter_In in Hin. destruct Hin as [Hin _].
    apply ListFacts.combine_seq_nth in Hin. lia. }
  apply H.
Qed.

(** The frame read at the emitted positions is the concatenation of the
    per-qid selections. *)
Lemma emitted_rows (df : dataframe) (qids : list Z) :
  map (nth_error df) (emitted_positions df qids) =
  map Some (flat_map (select_qid df) qids).
Proof.
  unfold emitted_positions. induction qids as [|q qs IH]; simpl; [reflexivity|].
  now rewrite !map_app, positions_of_rows, IH.
Qed.

Lemma identity_grouped (df : dataframe) (qids : list Z) :
  emitted_positions df qids = seq 0 (length df) -> grouped_by df qids.
Proof.
  intros H. unfold grouped_by. apply ListFacts.map_Some_inj.
  rewrite <- emitted_rows, H. symmetry. apply ListFacts.map_nth_error_seq.
Qed.

(** The scorer returns one score per document of its corpus. *)
Hypothesis scorer_length :
  forall corpus query, length (scorer corpus query) = length corpus.

Lemma block_own_score (df : dataframe) (q : Z) :
  block scorer df q = map (own_score scorer df) (positions_of df q).
Proof.
  pose proof (positions_of_length df q) as Hlen.
  unfold block. destruct (select_qid df q) as [|r0 docs] eqn:E.
  - destruct (positions_of df q); [reflexivity | discriminate].
  - set (S := scorer (map clean_passages (r0 :: docs)) (clean_queries r0)).
    set (P := positions_of df q) in *.
    rewrite (map_ext_in _ (fun p => nth (Ranker.offset p P) S 0%R)).
    + rewrite <- (map_map (fun p => Ranker.offset p P) (fun i => nth i S 0%R)).
      rewrite RankerFacts.offset_self by apply positions_of_NoDup.
      replace (length P) with (length S)
        by (unfold S; rewrite scorer_length, length_map; auto).
      symmetry. apply ListFacts.map_nth_seq.
    + intros p Hp. apply positions_of_qid in Hp. destruct Hp as [r [Hr Hq]].
      unfold own_score. rewrite Hr, Hq, E. reflexivity.
Qed.

Lemma blocks_own_scores (df : dataframe) (qids : list Z) :
  flat_map (block scorer df) qids =
  map (own_score scorer df) (emitted_positions df qids).
Proof.
  unfold emitted_positions. induction qids as [|q qs IH]; simpl; [reflexivity|].
  now rewrite map_app, block_own_score, IH.
Qed.

(** C10: [bm25_feature] returns the per-query blocks in the order of the
    qid list, each block in the row order of its qid, so the entry at
    place [p] of the array is the score of the row at the [p]-th emitted
    position.  If every place holds the score of its own row then the frame
    is already grouped by qid in the order of the list; when the array has
    the length of the frame and the frame is not grouped, the positional
    assignment gives some row the score computed for another row. *)
Theorem bm25_feature_blocks_in_qid_order (df : dataframe) (qids : list Z) :
  (forall q, In q qids -> select_qid df q <> []) ->
  bm25_feature scorer df qids =
    Ok (map (own_score scorer df) (emitted_positions df qids)) /\
  (emitted_positions df qids = seq 0 (length df) -> grouped_by df qids) /\
  (length (emitted_positions df qids) = length df ->
   ~ grouped_by df qids ->
   exists paired p p' r,
     bm25_column scorer df qids = Ok paired /\
     nth_error paired p = Some (r, own_score scorer df p') /\
     nth_error df p = Some r /\
     nth_error (emitted_positions df qids) p = Some p' /\
     p' <> p).
Proof.
  intros Hne.
  assert (Hfeat : bm25_feature scorer df qids =
                  Ok (map (own_score scorer df) (emitted_positions df qids)))
    by (rewrite bm25_feature_ok by exact Hne; now rewrite blocks_own_scores).
  split; [exact Hfeat|]. split; [apply identity_grouped|].
  intros Hlen Hng.
  assert (Hdiff : emitted_positions df qids <> seq 0 (length df))
    by (intros H; apply Hng; now apply identity_grouped).
  assert (Hlen' : length (emitted_positions df qids) = length (seq 0 (length df)))
    by now rewrite length_seq.
  destruct (ListFacts.differ_at _ _ Hlen' Hdiff) as [p [p' [y [Hp [Hy Hpy]]]]].
  assert (Hlt : p < length df).
  { rewrite <- (length_seq (length df) 0). apply nth_error_Some. congruence. }
  rewrite nth_error_seq in Hy.
  destruct (Nat.ltb_spec p (length df)) as [_|]; [|lia].
  simpl in Hy. inversion Hy; subst y.
  destruct (nth_error df p) as [r|] eqn:Hr; [|apply nth_error_None in Hr; lia].
  exists (combine df (map (own_score scorer df) (emitted_positions df qids))), p, p', r.
  split.
  - unfold bm25_column. rewrite Hfeat. simpl. unfold assign_column.
    rewrite length_map, Hlen, Nat.eqb_refl. reflexivity.
  - split; [|auto].
    apply ListFacts.nth_error_combine; [exact Hr|].
    rewrite nth_error_map, Hp. reflexivity.
Qed.


End Feature.

(** *** The qid list of the script *)

Lemma unique_In (l : list Z) (x : Z) : In x (unique l) <-> In x l.
Proof.
  induction l as [|y l IH]; simpl; [reflexivity|].
  rewrite filter_In, IH. split.
  - intros [H|[H _]]; auto.
  - intros [H|H]; [now left|].
    destruct (Z.eq_dec y x) as [E|E]; [now left|].
    right. split; [exact H|]. apply negb_true_iff, Z.eqb_neq. congruence.
Qed.

Lemma unique_NoDup (l : list Z) : NoDup (unique l).
Proof.
  induction l as [|y l IH]; simpl; constructor.
  - rewrite filter_In. intros [_ H]. rewrite Z.eqb_refl in H. discriminate.
  - now apply NoDup_filter.
Qed.

Lemma validation_qid_has_rows (df : dataframe) (q : Z) :
  In q (validation_qid df) -> select_qid df q <> [].
Proof.
  unfold validation_qid. rewrite unique_In, in_map_iff.
  intros [r [E Hr]] Hnil.
  assert (Hin : In r (select_qid df q)).
  { unfold select_qid. apply filter_In. split; [exact Hr | now apply Z.eqb_eq]. }
  rewrite Hnil in Hin. contradiction.
Qed.

Lemma selections_length (df : dataframe) (qids : list Z) :
  NoDup qids ->
  length (flat_map (select_qid df) qids)
  = length (filter (fun r => existsb (Z.eqb (qid r)) qids) df).
Proof.
  induction 1 as [|q qs Hq Hnd IH]; simpl.
  - now rewrite ListFacts.filter_none.
  - rewrite length_app, IH. symmetry. unfold select_qid.
    apply (ListFacts.filter_orb_length _ (fun r => (qid r =? q)%Z)
             (fun r => existsb (Z.eqb (qid r)) qs)).
    intros r _ E. apply Z.eqb_eq in E. subst q.
    destruct (existsb (Z.eqb (qid r)) qs) eqn:Ex; [|reflexivity].
    apply existsb_exists in Ex. destruct Ex as [y [Hy Ey]].
    apply Z.eqb_eq in Ey. subst y. contradiction.
Qed.

Lemma emitted_length (df : dataframe) (qids : list Z) :
  length (emitted_positions df qids) = length (flat_map (select_qid df) qids).
Proof.
  unfold emitted_positions. apply ListFacts.flat_map_length_sum.
  intros q. apply positions_of_length.
Qed.

(** With the qid list of the script the array has the length of the
    frame, so the positional assignment goes through. *)
Lemma validation_qid_emits_every_row (df : dataframe) :
  length (emitted_positions df (validation_qid df)) = length df.
Proof.
  rewrite emitted_length, selections_length by apply unique_NoDup.
  f_equal. apply ListFacts.filter_all. intros r Hr.
  apply existsb_exists. exists (qid r). split; [|apply Z.eqb_refl].
  unfold validation_qid. apply unique_In. now apply in_map.
Qed.

Lemma bm25_feature_blocks_in_qid_order_witness :
  (forall corpus query, length (get_scores corpus query) = length corpus) /\
  (forall q, In q [1%Z; 2%Z] -> select_qid interleaved q <> []) /\
  emitted_positions interleaved [1%Z; 2%Z] = [0; 2; 1] /\
  ~ grouped_by interleaved [1%Z; 2%Z] /\
  exists paired p p' r,
    bm25_column get_scores interleaved [1%Z; 2%Z] = Ok paired /\
    nth_error paired p = Some (r, own_score get_scores interleaved p') /\
    nth_error interleaved p = Some r /\
    nth_error (emitted_positions interleaved [1%Z; 2%Z]) p = Some p' /\
    p' <> p.
Proof.
  assert (H1 : forall corpus query, length (get_scores corpus query) = length corpus)
    by (intros; apply length_map).
  assert (H2 : forall q, In q [1%Z; 2%Z] -> select_qid interleaved q <> []).
  { intros q [<-|[<-|[]]]; discriminate. }
  assert (H3 : ~ grouped_by interleaved [1%Z; 2%Z]).
  { unfold grouped_by. vm_compute. discriminate. }
  split; [exact H1|]. split; [exact H2|]. split; [reflexivity|]. split; [exact H3|].
  exact (proj2 (proj2 (bm25_feature_blocks_in_qid_order get_scores H1
                         interleaved [1%Z; 2%Z] H2)) eq_refl H3).
Defined.

End FeatureFacts.

(** ** The scorer *)

Module ScorerFacts.
Import BM25.

Local Open Scope R_scope.

Lemma ln_le_sub1 (x : R) : 0 < x -> ln x <= x - 1.
Proof.
  intros Hx. pose proof (exp_ineq1_le (ln x)) as H.
  rewrite exp_ln in H by exact Hx. lra.
Qed.

Lemma ln_ge_1_sub_inv (x : R) : 0 < x -> 1 - / x <= ln x.
Proof.
  intros Hx. pose proof (ln_le_sub1 (/ x) (Rinv_0_lt_compat _ Hx)) as H.
  rewrite ln_Rinv in H by exact Hx. lra.
Qed.

Lemma ln_pos (x : R) : 1 < x -> 0 < ln x.
Proof. intros Hx. rewrite <- ln_1. apply ln_increasing; lra. Qed.

Lemma k1_value : k1 = 1.5.
Proof. unfold k1. lra. Qed.

Lemma b_value : b = 0.75.
Proof. unfold b. lra. Qed.

Lemma doc_freq_le (corpus : list (list token)) (t : token) :
  (doc_freq corpus t <= length corpus)%nat.
Proof. unfold doc_freq. apply filter_length_le. Qed.

Lemma idf_pos (corpus : list (list token)) (t : token) : 0 < idf corpus t.
Proof.
  unfold idf. apply ln_pos.
  pose proof (le_INR _ _ (doc_freq_le corpus t)) as Hle.
  pose proof (pos_INR (doc_freq corpus t)) as Hn.
  assert (0 < (INR (length corpus) - INR (doc_freq corpus t) + 5 / 10)
              / (INR (doc_freq corpus t) + 5 / 10)).
  { apply Rdiv_lt_0_compat; lra. }
  lra.
Qed.

Lemma total_len_pos_nonempty (corpus : list (list token)) :
  (0 < total_len corpus)%nat -> (0 < length corpus)%nat.
Proof. destruct corpus; simpl; lia. Qed.

Lemma avgdl_pos (corpus : list (list token)) :
  (0 < total_len corpus)%nat -> 0 < avgdl corpus.
Proof.
  intros H. unfold avgdl. apply Rdiv_lt_0_compat.
  - now apply lt_0_INR.
  - apply lt_0_INR. now apply total_len_pos_nonempty.
Qed.

(** The divisor of a summand is positive as soon as avgdl is. *)
Lemma divisor_pos (f dl avg : R) :
  0 <= f -> 0 <= dl -> 0 < avg -> 0 < f + k1 * (1 - b + b * dl / avg).
Proof.
  intros Hf Hdl Havg. unfold k1, b.
  assert (0 <= dl / avg).
  { unfold Rdiv. apply Rmult_le_pos; [exact Hdl|].
    left. now apply Rinv_0_lt_compat. }
  lra.
Qed.

Lemma term_score_zero (idf_t dl avg : R) : term_score idf_t 0 dl avg = 0.
Proof. unfold term_score, Rdiv. rewrite !Rmult_0_l, Rmult_0_r, Rmult_0_l. reflexivity. Qed.

(** A summand does not decrease when the term frequency alone grows. *)
Lemma term_score_monotone (idf_t f f' dl avg : R) :
  0 <= idf_t -> 0 <= f <= f' -> 0 <= dl -> 0 < avg ->
  term_score idf_t f dl avg <= term_score idf_t f' dl avg.
Proof.
  intros Hi [Hf Hff] Hdl Havg. unfold term_score.
  pose proof (divisor_pos f dl avg Hf Hdl Havg) as Hd.
  assert (Hf' : 0 <= f') by lra.
  pose proof (divisor_pos f' dl avg Hf' Hdl Havg) as Hd'.
  set (c := k1 * (1 - b + b * dl / avg)) in *.
  assert (Hc : 0 <= c).
  { unfold c, k1, b.
    assert (0 <= dl / avg).
    { unfold Rdiv. apply Rmult_le_pos; [exact Hdl|].
      left. now apply Rinv_0_lt_compat. }
    lra. }
  assert (Hk : 0 <= k1 + 1) by (unfold k1; lra).
  apply Rmult_le_reg_r with ((f + c) * (f' + c)).
  { now apply Rmult_lt_0_compat. }
  replace (idf_t * (f * (k1 + 1)) / (f + c) * ((f + c) * (f' + c)))
    with (idf_t * (k1 + 1) * (f * (f' + c))) by (field; lra).
  replace (idf_t * (f' * (k1 + 1)) / (f' + c) * ((f + c) * (f' + c)))
    with (idf_t * (k1 + 1) * (f' * (f + c))) by (field; lra).
  apply Rmult_le_compat_l; [now apply Rmult_le_pos|]. nra.
Qed.

Lemma Rsum_le (A : Type) (g h : A -> R) (l : list A) :
  (forall x, In x l -> g x <= h x) -> Rsum (map g l) <= Rsum (map h l).
Proof.
  induction l as [|x l IH]; intros H; simpl; [lra|].
  apply Rplus_le_compat; [apply H; now left | apply IH; intros; apply H; now right].
Qed.

Lemma Rsum_zero (A : Type) (g : A -> R) (l : list A) :
  (forall x, In x l -> g x = 0) -> Rsum (map g l) = 0.
Proof.
  induction l as [|x l IH]; intros H; simpl; [reflexivity|].
  rewrite H by now left. rewrite IH by (intros; apply H; now right). lra.
Qed.

(** A document that holds no token of the query scores 0. *)
Lemma score_doc_no_overlap (corpus : list (list token)) (query d : list token) :
  (forall t, In t query -> tf t d = 0%nat) -> score_doc corpus query d = 0.
Proof.
  intros H. unfold score_doc, score_with. apply Rsum_zero.
  intros t Ht. rewrite (H t Ht). simpl. apply term_score_zero.
Qed.

(** *** The score formula on the frame *)



(** *** Term frequency and score *)

Lemma idf_a_bounds (d : list token) :
  (0 < tf "a"%string d)%nat ->
  0 < idf (d :: others) "a"%string <= 1 / 9.
Proof.
  intros Hd. unfold idf.
  replace (doc_freq (d :: others) "a"%string) with 4%nat.
  2:{ unfold doc_freq. simpl filter.
      destruct (0 <? tf "a"%string d)%nat eqn:E; [reflexivity|].
      apply Nat.ltb_ge in E. lia. }
  replace (length (d :: others)) with 4%nat by reflexivity.
  replace (INR 4) with 4 by (simpl; lra).
  split.
  - apply ln_pos. lra.
  - eapply Rle_trans; [apply ln_le_sub1; lra|]. lra.
Qed.

Lemma idf_b_bound (d : list token) :
  (0 < tf "b"%string d)%nat ->
  7 / 10 <= idf (d :: others) "b"%string.
Proof.
  intros Hd. unfold idf.
  replace (doc_freq (d :: others) "b"%string) with 1%nat.
  2:{ unfold doc_freq. simpl filter.
      destruct (0 <? tf "b"%string d)%nat eqn:E; [reflexivity|].
      apply Nat.ltb_ge in E. lia. }
  replace (length (d :: others)) with 4%nat by reflexivity.
  replace (INR 4) with 4 by (simpl; lra).
  replace (INR 1) with 1 by (simpl; lra).
  eapply Rle_trans; [|apply ln_ge_1_sub_inv; lra].
  apply Rplus_le_reg_r with (/ ((4 - 1 + 5 / 10) / (1 + 5 / 10) + 1)).
  replace (/ ((4 - 1 + 5 / 10) / (1 + 5 / 10) + 1)) with (3 / 10) by (field; lra).
  lra.
Qed.

Lemma doc_freq_cons (corpus : list (list token)) (d : list token) (t : token) :
  doc_freq (d :: corpus) t =
  ((if (0 <? tf t d)%nat then 1 else 0) + doc_freq corpus t)%nat.
Proof.
  unfold doc_freq. cbn [filter]. destruct (0 <? tf t d)%nat; reflexivity.
Qed.

Lemma contains_same (t : token) :
  (0 <? tf t doc_aab)%nat = (0 <? tf t doc_ab)%nat.
Proof.
  unfold doc_aab, tf. cbn [count_occ].
  destruct (string_dec "a" t) as [<-|]; reflexivity.
Qed.

Lemma idf_same (t : token) :
  idf (doc_aab :: others) t = idf (doc_ab :: others) t.
Proof.
  unfold idf. rewrite !doc_freq_cons, contains_same. reflexivity.
Qed.

Lemma score_ab :
  score_doc (doc_ab :: others) query_ab doc_ab =
  (idf (doc_ab :: others) "a"%string + idf (doc_ab :: others) "b"%string)
  * (25 / 10 / (3175 / 1000)).
Proof.
  unfold score_doc, score_with, query_ab. simpl map. unfold Rsum, fold_right.
  replace (tf "a"%string doc_ab) with 1%nat by reflexivity.
  replace (tf "b"%string doc_ab) with 1%nat by reflexivity.
  replace (length doc_ab) with 2%nat by reflexivity.
  unfold avgdl.
  replace (total_len (doc_ab :: others)) with 5%nat by reflexivity.
  replace (length (doc_ab :: others)) with 4%nat by reflexivity.
  unfold term_score, k1, b.
  replace (INR 1) with 1 by (simpl; lra).
  replace (INR 2) with 2 by (simpl; lra).
  replace (INR 4) with 4 by (simpl; lra).
  replace (INR 5) with 5 by (simpl; lra).
  field.
Qed.

Lemma score_aab :
  score_doc (doc_aab :: others) query_ab doc_aab =
  idf (doc_ab :: others) "a"%string * (5 / (4625 / 1000))
  + idf (doc_ab :: others) "b"%string * (25 / 10 / (3625 / 1000)).
Proof.
  unfold score_doc, score_with, query_ab. simpl map. unfold Rsum, fold_right.
  rewrite !idf_same.
  replace (tf "a"%string doc_aab) with 2%nat by reflexivity.
  replace (tf "b"%string doc_aab) with 1%nat by reflexivity.
  replace (length doc_aab) with 3%nat by reflexivity.
  unfold avgdl.
  replace (total_len (doc_aab :: others)) with 6%nat by reflexivity.
  replace (length (doc_aab :: others)) with 4%nat by reflexivity.
  unfold term_score, k1, b.
  replace (INR 1) with 1 by (simpl; lra).
  replace (INR 2) with 2 by (simpl; lra).
  replace (INR 3) with 3 by (simpl; lra).
  replace (INR 4) with 4 by (simpl; lra).
  replace (INR 6) with 6 by (simpl; lra).
  field.
Qed.

(** C7, counterexample: the passage [a b] of the sample candidate set
    scores higher for the query [a b] than the passage [a a b] put in its
    place, although [a a b] only has one more occurrence of the query token
    [a] and the same frequency of every other token. *)
Lemma extra_occurrence_lowers_score :
  In "a"%string query_ab /\
  (0 < tf "a"%string doc_ab < tf "a"%string doc_aab)%nat /\
  (forall t, t <> "a"%string -> tf t doc_aab = tf t doc_ab) /\
  nth 0 (get_scores (doc_aab :: others) query_ab) 0
  < nth 0 (get_scores (doc_ab :: others) query_ab) 0.
Proof.
  split; [now left|]. split; [split; vm_compute; lia|]. split.
  - intros t Ht. unfold doc_aab, tf. cbn [count_occ].
    destruct (string_dec "a" t); [congruence | reflexivity].
  - unfold get_scores. simpl nth. rewrite score_ab, score_aab.
    assert (Ha : (0 < tf "a"%string doc_ab)%nat) by (vm_compute; lia).
    assert (Hb : (0 < tf "b"%string doc_ab)%nat) by (vm_compute; lia).
    pose proof (idf_a_bounds doc_ab Ha). pose proof (idf_b_bound doc_ab Hb).
    lra.
Qed.

(** C7, amended: with the document length and the corpus statistics held
    fixed, the score does not decrease when term frequencies grow. *)
Theorem score_monotone_at_fixed_length (corpus : list (list token))
    (query : list token) (freq freq' : token -> nat) (dl : nat) :
  (0 < total_len corpus)%nat ->
  (forall t, In t query -> (freq t <= freq' t)%nat) ->
  score_with corpus query freq dl <= score_with corpus query freq' dl.
Proof.
  intros Hlen Hf. unfold score_with. apply Rsum_le. intros t Ht.
  apply term_score_monotone.
  - left. apply idf_pos.
  - split; [apply pos_INR | apply le_INR, Hf, Ht].
  - apply pos_INR.
  - now apply avgdl_pos.
Qed.

Lemma score_monotone_at_fixed_length_witness :
  (0 < total_len (doc_ab :: others))%nat /\
  (forall t, In t query_ab -> (tf t doc_ab <= tf t doc_aab)%nat) /\
  score_with (doc_ab :: others) query_ab (fun t => tf t doc_ab) 2
  <= score_with (doc_ab :: others) query_ab (fun t => tf t doc_aab) 2.
Proof.
  assert (H1 : (0 < total_len (doc_ab :: others))%nat) by (vm_compute; lia).
  assert (H2 : forall t, In t query_ab -> (tf t doc_ab <= tf t doc_aab)%nat).
  { intros t [<-|[<-|[]]]; vm_compute; lia. }
  split; [exact H1|]. split; [exact H2|].
  apply (score_monotone_at_fixed_length (doc_ab :: others) query_ab
           (fun t => tf t doc_ab) (fun t => tf t doc_aab) 2 H1 H2).
Defined.

(** *** Degenerate candidate sets *)

(** C9, counterexample: qid 3 has no row in the sample frame, so its
    document set has length zero; the feature raises [KeyError] when it
    reads the query of row 0 and returns no score at all. *)
Lemma empty_candidate_set_raises :
  select_qid interleaved 3 = [] /\
  bm25_okapi_feature interleaved [1%Z; 3%Z] = Raise KeyError.
Proof.
  split; [reflexivity|].
  apply (FeatureFacts.bm25_feature_raises get_scores interleaved [1%Z; 3%Z] 3%Z).
  - simpl; auto.
  - reflexivity.
Qed.

Lemma get_scores_length (corpus : list (list token)) (query : list token) :
  length (get_scores corpus query) = length corpus.
Proof. apply length_map. Qed.

Lemma total_len_rows (df : dataframe) (q : Z) :
  (0 < total_len (corpus_of df q))%nat -> select_qid df q <> [].
Proof.
  unfold corpus_of. intros H E. rewrite E in H. simpl in H. lia.
Qed.

(** When every passage of the candidate set is empty, the average length
    that every summand divides by is 0. *)
Lemma avgdl_all_empty (corpus : list (list token)) :
  total_len corpus = 0%nat -> avgdl corpus = 0.
Proof.
  intros H. unfold avgdl. rewrite H. simpl. unfold Rdiv. apply Rmult_0_l.
Qed.

(** C9, amended: a qid without candidate rows makes the feature raise
    [KeyError]; when the candidate set of every qid holds at least one
    token -- a single row and rows with an empty passage included -- the
    feature returns one score per candidate row, and for every qid avgdl
    is positive, df(t) is at most N, so that the quotient under the
    logarithm is positive and idf(t) with it, the divisor of every summand
    is positive, and a passage without any token of the query, an empty
    one in particular, scores 0. *)
Theorem bm25_feature_on_degenerate_input (df : dataframe) (qids : list Z) :
  (forall q, In q qids -> select_qid df q = [] ->
             bm25_okapi_feature df qids = Raise KeyError) /\
  ((forall q, In q qids -> (0 < total_len (corpus_of df q))%nat) ->
   (exists scores,
       bm25_okapi_feature df qids = Ok scores /\
       length scores = length (flat_map (select_qid df) qids)) /\
   (forall q, In q qids ->
      0 < avgdl (corpus_of df q) /\
      (forall t,
          (doc_freq (corpus_of df q) t <= length (corpus_of df q))%nat /\
          0 < (INR (length (corpus_of df q)) - INR (doc_freq (corpus_of df q) t)
               + 5 / 10) / (INR (doc_freq (corpus_of df q) t) + 5 / 10) /\
          0 < idf (corpus_of df q) t) /\
      (forall d t, 0 < INR (tf t d)
                       + k1 * (1 - b + b * INR (length d) / avgdl (corpus_of df q))) /\
      (forall d, (forall t, In t (query_of df q) -> tf t d = 0%nat) ->
                 score_doc (corpus_of df q) (query_of df q) d = 0) /\
      score_doc (corpus_of df q) (query_of df q) [] = 0)).
Proof.
  split.
  - intros q Hin Hq. now apply (FeatureFacts.bm25_feature_raises get_scores df qids q).
  - intros Hlen.
    assert (Hne : forall q, In q qids -> select_qid df q <> []).
    { intros q Hq. apply total_len_rows, Hlen, Hq. }
    split.
    + eexists. split.
      * apply FeatureFacts.bm25_feature_ok. exact Hne.
      * apply ListFacts.flat_map_length_sum. intros q. unfold block.
        destruct (select_qid df q) as [|r0 docs] eqn:E; [reflexivity|].
        rewrite get_scores_length, length_map. reflexivity.
    + intros q Hq. specialize (Hlen q Hq).
      pose proof (avgdl_pos _ Hlen) as Havg.
      split; [exact Havg|]. split; [|split; [|split]].
      * intros t. split; [apply doc_freq_le|]. split; [|apply idf_pos].
        pose proof (le_INR _ _ (doc_freq_le (corpus_of df q) t)) as Hle.
        pose proof (pos_INR (doc_freq (corpus_of df q) t)) as Hn.
        apply Rdiv_lt_0_compat; lra.
      * intros d t. apply divisor_pos; [apply pos_INR | apply pos_INR | exact Havg].
      * intros d. apply score_doc_no_overlap.
      * apply score_doc_no_overlap. intros t _. reflexivity.
Qed.

Lemma bm25_feature_on_degenerate_input_witness :
  (In 3%Z [1%Z; 3%Z] /\ select_qid interleaved 3 = [] /\
   bm25_okapi_feature interleaved [1%Z; 3%Z] = Raise KeyError) /\
  ((forall q, In q [2%Z] -> (0 < total_len (corpus_of interleaved q))%nat) /\
   exists scores, bm25_okapi_feature interleaved [2%Z] = Ok scores /\
                  length scores = 1%nat).
Proof.
  split.
  - assert (H : In 3%Z [1%Z; 3%Z]) by (simpl; auto).
    split; [exact H|]. split; [reflexivity|].
    exact (proj1 (bm25_feature_on_degenerate_input interleaved [1%Z; 3%Z])
                 3%Z H eq_refl).
  - assert (H : forall q, In q [2%Z] ->
                          (0 < total_len (corpus_of interleaved q))%nat).
    { intros q [<-|[]]. vm_compute. lia. }
    split; [exact H|].
    exact (proj1 (proj2 (bm25_feature_on_degenerate_input interleaved [2%Z]) H)).
Defined.

End ScorerFacts.

(** ** Mean NDCG *)

Module NDCGFacts.
Import NDCG.

Local Open Scope R_scope.

(** *** Logarithms and discounts *)

Lemma ln2_pos : 0 < ln 2.
Proof. rewrite <- ln_1. apply ln_increasing; lra. Qed.

Lemma log2_2 : log2 2 = 1.
Proof. unfold log2. field. pose proof ln2_pos. lra. Qed.

Lemma log2_pos (x : R) : 1 < x -> 0 < log2 x.
Proof.
  intros Hx. unfold log2. apply Rdiv_lt_0_compat; [|apply ln2_pos].
  rewrite <- ln_1. apply ln_increasing; lra.
Qed.

Lemma log2_increasing (x y : R) : 0 < x -> x < y -> log2 x < log2 y.
Proof.
  intros Hx Hxy. unfold log2, Rdiv. apply Rmult_lt_compat_r.
  - apply Rinv_0_lt_compat, ln2_pos.
  - now apply ln_increasing.
Qed.

Lemma inv_log2_pos (x : R) : 1 < x -> 0 < 1 / log2 x.
Proof. intros Hx. apply Rdiv_lt_0_compat; [lra | now apply log2_pos]. Qed.

Lemma inv_log2_decreasing (x y : R) : 1 < x -> x < y -> 1 / log2 y < 1 / log2 x.
Proof.
  intros Hx Hxy. unfold Rdiv. rewrite !Rmult_1_l.
  apply Rinv_lt_contravar.
  - apply Rmult_lt_0_compat; apply log2_pos; lra.
  - apply log2_increasing; lra.
Qed.

Lemma Rsum_app (l l' : list R) : Rsum (l ++ l') = Rsum l + Rsum l'.
Proof. induction l as [|x l IH]; simpl; [lra | rewrite IH; lra]. Qed.


Lemma dcg_cons (r : row) (g : dataframe) : dcg (r :: g) = gain (rank r) + dcg g.
Proof. reflexivity. Qed.

(** *** The loop over the relevant rows *)

Lemma in_done (q : Z) (done : list Z) :
  existsb (Z.eqb q) done = true <-> In q done.
Proof.
  rewrite existsb_exists. split.
  - intros [x [Hx E]]. apply Z.eqb_eq in E. now subst.
  - intros H. exists q. split; [exact H | apply Z.eqb_refl].
Qed.

Lemma new_query_false (st : state) (r : row) :
  In (qid r) (done_qid st) -> new_query st r = false.
Proof.
  intros H. unfold new_query. apply in_done in H. now rewrite H.
Qed.

Lemma new_query_true (st : state) (r : row) :
  ~ In (qid r) (done_qid st) -> (0 < counter st)%nat -> new_query st r = true.
Proof.
  intros H Hc. unfold new_query.
  destruct (existsb (Z.eqb (qid r)) (done_qid st)) eqn:E.
  - apply in_done in E. contradiction.
  - simpl. apply Nat.ltb_lt. exact Hc.
Qed.

(** Rows of a query that is already in [done_qid] only add to [d]. *)
Lemma loop_same_query (IDCG : list R) (g rest : dataframe) :
  forall st,
    Forall (fun r => In (qid r) (done_qid st)) g ->
    loop IDCG (g ++ rest) st =
    loop IDCG rest
         (mkState (done_qid st) (d st + dcg g) (idx st)
                  (counter st + length g) (DCG st) (NDCG st)).
Proof.
  induction g as [|r g IH]; intros st Hg.
  - simpl. f_equal. destruct st; simpl. f_equal; [unfold dcg; simpl; lra | lia].
  - inversion Hg as [|? ? Hr Hg']; subst.
    simpl. unfold step. rewrite (new_query_false _ _ Hr). simpl.
    rewrite IH by exact Hg'. simpl. f_equal.
    f_equal; [rewrite dcg_cons; lra | lia].
Qed.

Lemma skipn_nth_error_Some (A : Type) (l : list A) (n : nat) (x : A) :
  nth_error l n = Some x -> skipn n l = x :: skipn (S n) l.
Proof.
  revert l. induction n as [|n IH]; intros [|y l] H; simpl in H; try discriminate.
  - inversion H. reflexivity.
  - now apply IH.
Qed.

Lemma skipn_nth_error_None (A : Type) (l : list A) (n : nat) :
  nth_error l n = None -> skipn n l = [].
Proof.
  intros H. apply nth_error_None in H. now apply skipn_all2.
Qed.

(** From a state whose [d] is the sum of the chunk [c], the loop over
    fresh runs appends the quotient of every chunk but the last. *)
Lemma loop_runs (IDCG : list R) (gs : list dataframe) :
  forall st c,
    (0 < counter st)%nat -> d st = dcg c -> fresh (done_qid st) gs ->
    (st' <- loop IDCG (concat gs) st ;; Ok (NDCG st')) =
    (l <- ratios (removelast (c :: gs)) (skipn (idx st) IDCG) ;;
     Ok (NDCG st ++ l)).
Proof.
  induction gs as [|g gs IH]; intros st c Hc Hd Hf.
  - simpl. now rewrite app_nil_r.
  - destruct g as [|r g]; [contradiction|].
    destruct Hf as [Hnew [Hg Hf]].
    change (removelast (c :: (r :: g) :: gs))
      with (c :: removelast ((r :: g) :: gs)).
    cbn [concat app loop]. unfold step at 1.
    rewrite (new_query_true _ _ Hnew Hc).
    destruct (nth_error IDCG (idx st)) as [k|] eqn:E.
    + rewrite (skipn_nth_error_Some _ _ _ _ E). cbn [bind ratios].
      rewrite loop_same_query.
      2:{ cbn [done_qid]. apply Forall_forall. intros x Hx.
          rewrite Forall_forall in Hg. rewrite (Hg x Hx).
          apply in_or_app. right. now left. }
      rewrite (IH _ (r :: g)).
      * cbn [idx NDCG]. rewrite bind_assoc. apply bind_ext. intros l.
        cbn [bind]. rewrite <- app_assoc, Hd. reflexivity.
      * cbn [counter]. lia.
      * cbn [d]. rewrite dcg_cons. lra.
      * exact Hf.
    + rewrite (skipn_nth_error_None _ _ _ E). reflexivity.
Qed.

(** *** Sorting by qid *)

Lemma insert_by_qid_In (r x : row) (l : dataframe) :
  In x (insert_by_qid r l) <-> x = r \/ In x l.
Proof.
  induction l as [|y l IH]; simpl; [intuition|].
  destruct (qid r <=? qid y)%Z; simpl; [intuition|].
  rewrite IH. intuition.
Qed.

Lemma insert_by_qid_sorted (r : row) (l : dataframe) :
  StronglySorted by_qid l -> StronglySorted by_qid (insert_by_qid r l).
Proof.
  induction 1 as [|y l Hs IH Hy]; simpl.
  - constructor; constructor.
  - destruct (qid r <=? qid y)%Z eqn:E.
    + apply Z.leb_le in E. constructor; [now constructor|].
      constructor; [exact E|].
      rewrite Forall_forall in *. intros x Hx. specialize (Hy x Hx).
      unfold by_qid in *. lia.
    + apply Z.leb_gt in E. constructor; [exact IH|].
      rewrite Forall_forall in *. intros x Hx.
      apply insert_by_qid_In in Hx. destruct Hx as [->|Hx].
      * unfold by_qid. lia.
      * now apply Hy.
Qed.

Lemma sort_values_sorted (df : dataframe) : StronglySorted by_qid (sort_values df).
Proof.
  induction df as [|r df IH]; simpl; [constructor|].
  now apply insert_by_qid_sorted.
Qed.

Lemma filter_sorted (f : row -> bool) (l : dataframe) :
  StronglySorted by_qid l -> StronglySorted by_qid (filter f l).
Proof.
  induction 1 as [|x l Hs IH Hx]; simpl; [constructor|].
  destruct (f x); [constructor|]; auto.
  rewrite Forall_forall in *. intros y Hy. apply filter_In in Hy. now apply Hx.
Qed.

Lemma relevant_sorted (df : dataframe) :
  StronglySorted by_qid (relevant (sort_values df)).
Proof. apply filter_sorted, sort_values_sorted. Qed.

(** *** Runs *)

Lemma runs_cons (r : row) (rs : dataframe) :
  exists g gs, runs (r :: rs) = (r :: g) :: gs.
Proof.
  simpl. destruct (runs rs) as [|[|r' g] gs]; eauto.
  destruct (qid r =? qid r')%Z; eauto.
Qed.

Lemma runs_concat (l : dataframe) : concat (runs l) = l.
Proof.
  induction l as [|r rs IH]; [reflexivity|].
  simpl. destruct (runs rs) as [|[|r' g] gs] eqn:E.
  - simpl in IH. now subst.
  - destruct rs as [|x rs]; [reflexivity|].
    destruct (runs_cons x rs) as [g' [gs' E']]. congruence.
  - destruct (qid r =? qid r')%Z; simpl in *; now rewrite IH.
Qed.

(** The runs of a frame sorted by qid are fresh after any qids that are
    smaller than all of its rows. *)
Lemma runs_fresh (l : dataframe) :
  StronglySorted by_qid l ->
  forall done,
    (forall q r, In q done -> In r l -> (q < qid r)%Z) ->
    fresh done (runs l).
Proof.
  induction 1 as [|r rs Hs IH Hr]; intros done Hdone; [exact I|].
  assert (Hnew : ~ In (qid r) done).
  { intros Hin. specialize (Hdone _ r Hin (or_introl eq_refl)). lia. }
  pose proof (runs_concat rs) as Hcat.
  simpl. destruct (runs rs) as [|[|r' g] gs] eqn:E.
  - simpl. auto.
  - destruct rs as [|x rs']; [discriminate|].
    destruct (runs_cons x rs') as [g' [gs' E']]. congruence.
  - assert (Hin' : In r' rs) by (rewrite <- Hcat; simpl; now left).
    rewrite Forall_forall in Hr. pose proof (Hr r' Hin') as Hle. unfold by_qid in Hle.
    destruct (qid r =? qid r')%Z eqn:Eq.
    + apply Z.eqb_eq in Eq.
      specialize (IH done).
      destruct IH as [_ [Hg Hf]].
      { intros q x Hq Hx. apply Hdone; [exact Hq | now right]. }
      simpl. split; [exact Hnew|]. split.
      * constructor; [now symmetry|].
        rewrite Forall_forall in *. intros x Hx. rewrite (Hg x Hx). now symmetry.
      * now rewrite Eq.
    + apply Z.eqb_neq in Eq. simpl. split; [exact Hnew|]. split; [constructor|].
      apply (IH (done ++ [qid r])).
      intros q x Hq Hx. apply in_app_or in Hq. destruct Hq as [Hq|[<-|[]]].
      * apply Hdone; [exact Hq | now right].
      * rewrite <- Hcat in Hs, Hx. simpl in Hs, Hx.
        inversion Hs as [|? ? Hs' Hr']; subst.
        rewrite Forall_forall in Hr'.
        destruct Hx as [<-|Hx]; [lia|].
        assert (by_qid r' x) by (apply Hr'; exact Hx).
        unfold by_qid in *. lia.
Qed.

(** *** What the loop computes *)

Lemma loop_chunks (IDCG : list R) (rel : dataframe) :
  StronglySorted by_qid rel ->
  (st' <- loop IDCG rel init ;; Ok (NDCG st')) =
  ratios (removelast (chunks rel)) IDCG.
Proof.
  intros Hs. destruct rel as [|r rest]; [reflexivity|].
  inversion Hs as [|? ? Hs' Hr]; subst.
  cbn [loop]. unfold step at 1.
  change (new_query init r) with false. cbn [bind].
  rewrite <- (runs_concat rest) at 1.
  rewrite (loop_runs IDCG (runs rest) _ [r]).
  - cbn [idx NDCG init skipn app]. unfold chunks. apply bind_Ok.
  - cbn [counter init]. lia.
  - cbn [d init]. rewrite dcg_cons. unfold dcg. simpl. lra.
  - cbn [done_qid init]. apply runs_fresh; [exact Hs'|].
    intros q x [].
Qed.

(** The list [NDCG] holds, for every chunk of the relevant rows but the
    last, the sum [d] of the chunk over the IDCG entry of the same
    position; the chunks are the first relevant row of the sorted frame and
    then the runs of the remaining relevant rows. *)
Lemma ndcg_terms_chunks (df : dataframe) (retrieved : list nat) :
  ndcg_terms df retrieved =
  ratios (removelast (chunks (relevant (sort_values df)))) (IDCG_of retrieved).
Proof.
  unfold ndcg_terms. apply loop_chunks, relevant_sorted.
Qed.

(** *** Sample runs *)

Lemma idcg_1 : idcg 1 = 1.
Proof.
  unfold idcg. simpl. replace (1 + 1) with 2 by lra. rewrite log2_2. lra.
Qed.

Lemma idcg_2 : idcg 2 = 1 + 1 / log2 3.
Proof.
  unfold idcg. simpl. replace (1 + 1) with 2 by lra.
  replace (2 + 1) with 3 by lra. rewrite log2_2. lra.
Qed.

Lemma gain_1 : gain 1 = 1 / log2 3.
Proof. unfold gain. now replace (1 + 2) with 3 by lra. Qed.

Lemma gain_2 : gain 2 = 1 / log2 4.
Proof. unfold gain. now replace (2 + 2) with 4 by lra. Qed.

Lemma inv_log2_3_lt_1 : 1 / log2 3 < 1.
Proof.
  pose proof (inv_log2_decreasing 2 3 ltac:(lra) ltac:(lra)) as H.
  rewrite log2_2 in H. lra.
Qed.

(** C2, at the failing input: two queries, each with one candidate that is
    relevant and has rank 1.  For both queries DCG = IDCG = 1/log2(2), so
    their NDCG is 1; the code returns 1/log2(3) for the first one, because
    it discounts rank i by 1/log2(i+2), and nothing for the second. *)
Theorem mean_ndcg_discount_off_by_one :
  spec_ndcg two_queries 1 1 = 1 /\
  spec_ndcg two_queries 2 1 = 1 /\
  exists m,
    ndcg_terms two_queries [1%nat; 1%nat] = Ok [m] /\
    mean_ndcg two_queries [1%nat; 1%nat] = Ok (Fin ((m + 0) / 1)) /\
    m = 1 / log2 3 /\ m < 1.
Proof.
  assert (Hs : forall q, spec_dcg (relevant (select_qid two_queries q))
                         = Rsum (map (fun r => 1 / log2 (IZR (rank r) + 1))
                                     (relevant (select_qid two_queries q))))
    by reflexivity.
  split; [|split].
  - unfold spec_ndcg. rewrite Hs, idcg_1. simpl.
    replace (1 + 1) with 2 by lra. rewrite log2_2. lra.
  - unfold spec_ndcg. rewrite Hs, idcg_1. simpl.
    replace (1 + 1) with 2 by lra. rewrite log2_2. lra.
  - exists (dcg [mkRow 0 1 [] [] 1 1] / idcg 1).
    split; [rewrite ndcg_terms_chunks; reflexivity|].
    split; [unfold mean_ndcg; rewrite ndcg_terms_chunks; reflexivity|].
    assert (E : dcg [mkRow 0 1 [] [] 1 1] / idcg 1 = 1 / log2 3).
    { rewrite idcg_1, dcg_cons. cbn [rank]. rewrite gain_1. unfold dcg. simpl. lra. }
    rewrite E. split; [reflexivity | apply inv_log2_3_lt_1].
Qed.

Lemma inv_log2_4_pos : 0 < 1 / log2 4.
Proof. apply inv_log2_pos. lra. Qed.

Lemma inv_log2_3_pos : 0 < 1 / log2 3.
Proof. apply inv_log2_pos. lra. Qed.

(** C5, at the failing inputs.  In [one_query] the only query with
    relevant rows is also the last one the loop meets, and yet a value is
    returned: the discount of its first relevant row alone over IDCG[0],
    which is less than the query's DCG over IDCG.  In [split_frame] two
    queries have relevant rows and the list holds two terms, one for each
    of the two relevant rows of query 1. *)
Theorem mean_ndcg_first_query_split :
  queries_with_relevant one_query = [1%Z] /\
  (exists m,
      ndcg_terms one_query [2%nat] = Ok [m] /\
      mean_ndcg one_query [2%nat] = Ok (Fin ((m + 0) / 1)) /\
      m = 1 / log2 3 / idcg 2 /\
      m < dcg (relevant (select_qid one_query 1)) / idcg 2) /\
  queries_with_relevant split_frame = [1%Z; 2%Z] /\
  (exists m1 m2,
      ndcg_terms split_frame [2%nat; 1%nat] = Ok [m1; m2] /\
      m1 = 1 / log2 3 / idcg 2 /\
      m2 = 1 / log2 4 / idcg 1).
Proof.
  split; [reflexivity|]. split; [|split; [reflexivity|]].
  - exists (dcg [mkRow 0 1 [] [] 1 1] / idcg 2).
    split; [rewrite ndcg_terms_chunks; reflexivity|].
    split; [unfold mean_ndcg; rewrite ndcg_terms_chunks; reflexivity|].
    assert (E : dcg [mkRow 0 1 [] [] 1 1] = 1 / log2 3).
    { rewrite dcg_cons. cbn [rank]. rewrite gain_1. unfold dcg. simpl. lra. }
    rewrite E. split; [reflexivity|].
    change (relevant (select_qid one_query 1)) with one_query.
    unfold one_query. rewrite !dcg_cons. cbn [rank]. rewrite gain_1, gain_2.
    unfold dcg. simpl. rewrite idcg_2.
    pose proof inv_log2_3_pos. pose proof inv_log2_4_pos.
    apply Rmult_lt_compat_r; [apply Rinv_0_lt_compat; lra | lra].
  - exists (dcg [mkRow 0 1 [] [] 1 1] / idcg 2), (dcg [mkRow 1 1 [] [] 1 2] / idcg 1).
    split; [rewrite ndcg_terms_chunks; reflexivity|].
    rewrite !dcg_cons. cbn [rank]. rewrite gain_1, gain_2. unfold dcg. simpl.
    split; f_equal; lra.
Qed.


(** *** Perfect rankings *)

Lemma idcg_S (n : nat) : idcg (S n) = idcg n + 1 / log2 (INR (S n) + 1).
Proof.
  unfold idcg. rewrite seq_S, map_app, Rsum_app. simpl. lra.
Qed.

Lemma idcg_lt_S (n : nat) : idcg n < idcg (S n).
Proof.
  rewrite idcg_S.
  assert (0 < 1 / log2 (INR (S n) + 1)).
  { apply inv_log2_pos. pose proof (lt_0_INR (S n) ltac:(lia)). lra. }
  lra.
Qed.

Lemma idcg_lt (n K : nat) : (n < K)%nat -> idcg n < idcg K.
Proof.
  induction 1 as [|K HK IH]; [apply idcg_lt_S|].
  apply Rlt_trans with (idcg K); [exact IH | apply idcg_lt_S].
Qed.



Lemma idcg_le (n K : nat) : (n <= K)%nat -> idcg n <= idcg K.
Proof.
  intros H. destruct (Nat.eq_dec n K) as [->|Hne]; [lra|].
  left. apply idcg_lt. lia.
Qed.

Lemma idcg_pos (K : nat) : (1 <= K)%nat -> 0 < idcg K.
Proof.
  intros H. apply Rle_lt_trans with (idcg 0); [unfold idcg; simpl; lra|].
  apply idcg_lt. lia.
Qed.


(** *** The loop on the frame as the sort left it *)

Lemma sort_values_perm (df : dataframe) : Permutation df (sort_values df).
Proof.
  induction df as [|r df IH]; [constructor|].
  cbn [sort_values fold_right]. fold (sort_values df).
  apply Permutation_trans with (r :: sort_values df); [now constructor|].
  generalize (sort_values df). intros l.
  induction l as [|y l IHl]; simpl; [apply Permutation_refl|].
  destruct (qid r <=? qid y)%Z; [apply Permutation_refl|].
  apply Permutation_trans with (y :: r :: l); [apply perm_swap|].
  now constructor.
Qed.

(** [sort_values] is one of the arrangements the sort may leave. *)
Lemma sort_values_sorted_by_qid (df : dataframe) : sorted_by_qid df (sort_values df).
Proof. split; [apply sort_values_perm | apply sort_values_sorted]. Qed.

Lemma ndcg_terms_on_sort_values (df : dataframe) (retrieved : list nat) :
  ndcg_terms df retrieved = ndcg_terms_on (sort_values df) retrieved.
Proof. reflexivity. Qed.

Lemma mean_ndcg_on_sort_values (df : dataframe) (retrieved : list nat) :
  mean_ndcg df retrieved = mean_ndcg_on (sort_values df) retrieved.
Proof. reflexivity. Qed.

Lemma ndcg_terms_on_chunks (s : dataframe) (retrieved : list nat) :
  StronglySorted by_qid s ->
  ndcg_terms_on s retrieved =
  ratios (removelast (chunks (relevant s))) (IDCG_of retrieved).
Proof.
  intros H. unfold ndcg_terms_on. apply loop_chunks.
  unfold relevant. now apply filter_sorted.
Qed.




(** The sample runs do not depend on the order the sort leaves the rows
    of one qid in: [two_queries] has one arrangement in ascending qid, and
    in both arrangements of [one_query] the loop returns a value for the
    only query, below that query's DCG over IDCG. *)
Lemma two_queries_one_arrangement (s : dataframe) :
  sorted_by_qid two_queries s -> s = sort_values two_queries.
Proof.
  intros [Hp Hs]. unfold two_queries in Hp.
  apply Permutation_length_2_inv in Hp. destruct Hp as [-> | ->]; [reflexivity|].
  exfalso. inversion Hs as [|? ? _ Hf]; subst.
  inversion Hf as [|? ? Hb _]; subst.
  unfold by_qid in Hb. simpl in Hb. lia.
Qed.

Lemma one_query_any_arrangement (s : dataframe) :
  sorted_by_qid one_query s ->
  exists m, ndcg_terms_on s [2%nat] = Ok [m] /\
            m < dcg (relevant (select_qid one_query 1)) / idcg 2.
Proof.
  intros [Hp Hs].
  assert (Hq : dcg (relevant (select_qid one_query 1)) = 1 / log2 3 + 1 / log2 4).
  { change (relevant (select_qid one_query 1)) with one_query.
    unfold one_query. rewrite !dcg_cons. cbn [rank]. rewrite gain_1, gain_2.
    unfold dcg. simpl. lra. }
  assert (Hi : 0 < / idcg 2).
  { apply Rinv_0_lt_compat. apply idcg_pos. lia. }
  pose proof inv_log2_3_pos as H3. pose proof inv_log2_4_pos as H4.
  rewrite Hq. unfold one_query in Hp.
  apply Permutation_length_2_inv in Hp. destruct Hp as [-> | ->].
  - exists (dcg [mkRow 0 1 [] [] 1 1] / idcg 2).
    split; [rewrite (ndcg_terms_on_chunks _ _ Hs); reflexivity|].
    rewrite dcg_cons. cbn [rank]. rewrite gain_1. unfold dcg. simpl.
    apply Rmult_lt_compat_r; [exact Hi | lra].
  - exists (dcg [mkRow 1 1 [] [] 1 2] / idcg 2).
    split; [rewrite (ndcg_terms_on_chunks _ _ Hs); reflexivity|].
    rewrite dcg_cons. cbn [rank]. rewrite gain_2. unfold dcg. simpl.
    apply Rmult_lt_compat_r; [exact Hi | lra].
Qed.




Lemma log2_4 : log2 4 = 2.
Proof.
  unfold log2. replace 4 with (2 * 2) by lra.
  rewrite ln_mult by lra. pose proof ln2_pos. field. lra.
Qed.

(** A value of the list need not be computed for a query from that
    query's own count: in [out_of_step] the qids first appear in the order
    1, 3, 2, so the retrieved counts are [1; 1; 3], while the loop meets
    the queries in ascending qid; the two relevant rows of query 2, of
    ranks 1 and 2 among three candidates, are divided by the IDCG of
    query 3, and the value exceeds 1. *)
Lemma out_of_step_above_one :
  exists v1 v2,
    ndcg_terms out_of_step [1%nat; 1%nat; 3%nat] = Ok [v1; v2] /\
    v2 = dcg (relevant (select_qid out_of_step 2)) / idcg 1 /\
    1 < v2.
Proof.
  exists (dcg [mkRow 0 1 [] [] 1 1] / idcg 1),
         (dcg [mkRow 2 2 [] [] 1 1; mkRow 3 2 [] [] 1 2] / idcg 1).
  split; [rewrite ndcg_terms_chunks; reflexivity|].
  split; [reflexivity|].
  rewrite !dcg_cons. cbn [rank]. rewrite gain_1, gain_2, idcg_1, log2_4.
  unfold dcg. simpl.
  assert (H : 1 / log2 4 < 1 / log2 3) by (apply inv_log2_decreasing; lra).
  rewrite log2_4 in H. lra.
Qed.

End NDCGFacts.

(** * Further properties *)

(** ** The ranking step: the order of the ranks *)

Module RankerOrder.
Import Ranker.

Local Open Scope nat_scope.


Section Order.

Variable score : Type.
Variable ltb : score -> score -> bool.

Hypothesis ltb_asym : forall a b, ltb a b = true -> ltb b a = false.
Hypothesis geb_trans :
  forall a b c, ltb a b = false -> ltb b c = false -> ltb a c = false.




End Order.




End RankerOrder.

(** ** Mean precision: the script's call and the range of the result *)

Module PrecisionMore.
Import Precision.

Local Open Scope nat_scope.

Lemma K_of_range (df : dataframe) (q : Z) :
  select_qid df q <> [] -> 1 <= K_of df q <= 100.
Proof.
  intros H. unfold K_of, candidates.
  destruct (select_qid df q); [congruence | cbn [length]; lia].
Qed.

Lemma mean_precision_validation (df : dataframe) :
  mean_precision df (validation_qid df) =
    Ok (np_mean (map (precision_of df) (validation_qid df)),
        map (K_of df) (validation_qid df)) /\
  Forall (fun k => 1 <= k <= 100) (map (K_of df) (validation_qid df)).
Proof.
  split.
  - apply PrecisionFacts.mean_precision_ok.
    intros q. apply FeatureFacts.validation_qid_has_rows.
  - apply Forall_forall. intros k Hk. apply in_map_iff in Hk.
    destruct Hk as [q [<- Hq]]. apply K_of_range.
    now apply FeatureFacts.validation_qid_has_rows.
Qed.

(** With the qid list the script passes, the distinct qids of the frame
    itself, [mean_precision] does not raise: it returns the mean of the
    per-query quotients and one retrieved count per distinct qid, each
    between 1 and 100. *)
Theorem mean_precision_on_validation_qid (df : dataframe) :
  mean_precision df (validation_qid df) =
    Ok (np_mean (map (precision_of df) (validation_qid df)),
        map (K_of df) (validation_qid df)) /\
  Forall (fun k => 1 <= k <= 100) (map (K_of df) (validation_qid df)).
Proof. exact (mean_precision_validation df). Qed.

(** The only exception [mean_precision] raises is [ZeroDivisionError], and
    it raises it only when some qid of the list has no row. *)
Theorem mean_precision_raises_only_on_empty (df : dataframe) (qids : list Z)
    (e : exn) :
  mean_precision df qids = Raise e ->
  e = ZeroDivisionError /\ exists q, In q qids /\ select_qid df q = [].
Proof.
  intros H.
  assert (Hdec : (forall q, In q qids -> select_qid df q <> []) \/
                 (exists q, In q qids /\ select_qid df q = [])).
  { clear H. induction qids as [|q qs IH]; [left; intros q []|].
    destruct (select_qid df q) eqn:E.
    - right. exists q. split; [now left | exact E].
    - destruct IH as [IH|[q' [Hq' E']]].
      + left. intros q' [<-|Hq']; [congruence | now apply IH].
      + right. exists q'. split; [now right | exact E']. }
  destruct Hdec as [Hall|[q [Hq E]]].
  - rewrite (PrecisionFacts.mean_precision_ok df qids Hall) in H. discriminate.
  - split; [|eauto]. unfold mean_precision in H.
    rewrite (PrecisionFacts.precision_loop_raises df qids q Hq E) in H.
    simpl in H. congruence.
Qed.

Lemma mean_precision_raises_only_on_empty_witness :
  mean_precision [mkRow 0 1 [] [] 1 1] [1%Z; 5%Z] = Raise ZeroDivisionError /\
  (ZeroDivisionError = ZeroDivisionError /\
   exists q, In q [1%Z; 5%Z] /\ select_qid [mkRow 0 1 [] [] 1 1] q = []).
Proof.
  assert (H : mean_precision [mkRow 0 1 [] [] 1 1] [1%Z; 5%Z]
              = Raise ZeroDivisionError) by reflexivity.
  split; [exact H|].
  exact (mean_precision_raises_only_on_empty _ _ _ H).
Defined.

(** *** The range of a precision *)

(** With distinct index labels, the rows whose label is among the labels
    of [l] are rows of [l]. *)
Lemma isin_rows (df l : dataframe) (r : row) :
  NoDup (map index df) -> incl l df -> In r df ->
  isin (map index l) r = true -> In r l.
Proof.
  intros Hnd Hl Hr H. unfold isin in H. apply existsb_exists in H.
  destruct H as [i [Hi E]]. apply Z.eqb_eq in E. subst i.
  apply in_map_iff in Hi. destruct Hi as [r' [E Hr']].
  assert (r' = r) by (apply (PrecisionFacts.index_inj df); auto).
  now subst.
Qed.

Lemma overlap_count_le (df : dataframe) (q : Z) :
  NoDup (map index df) ->
  overlap_count df (top100 df q) <= length (top100 df q).
Proof.
  intros Hnd. unfold overlap_count, top100. rewrite length_map.
  set (l := firstn 100 (select_qid df q)).
  assert (Hl : incl l df).
  { intros r Hr. unfold l in Hr.
    assert (Hin : In r (select_qid df q)).
    { rewrite <- (firstn_skipn 100 (select_qid df q)).
      apply in_or_app. now left. }
    unfold select_qid in Hin. now apply filter_In in Hin. }
  apply NoDup_incl_length.
  - apply NoDup_filter. now apply NoDup_map_inv in Hnd.
  - intros r Hr. apply filter_In in Hr. destruct Hr as [Hr H].
    apply andb_true_iff in H. destruct H as [_ H].
    now apply (isin_rows df l r).
Qed.

Local Open Scope Q_scope.

Lemma quotient_range (c n : nat) :
  (c <= n)%nat -> 0 <= Z.of_nat c # Pos.of_nat n <= 1.
Proof.
  intros H. unfold Qle. simpl. split; [lia|].
  destruct n as [|n].
  - assert (c = 0%nat) by lia. subst. simpl. lia.
  - rewrite Z.mul_1_r.
    replace (Z.pos (Pos.of_nat (S n))) with (Z.of_nat (S n)); [lia|].
    rewrite <- positive_nat_Z, Nat2Pos.id by discriminate. reflexivity.
Qed.

Lemma Qsum_range (l : list Q) :
  Forall (fun p => 0 <= p <= 1) l ->
  0 <= Qsum l <= inject_Z (Z.of_nat (length l)).
Proof.
  induction 1 as [|p l [Hp0 Hp1] Hl [IH0 IH1]].
  - simpl. split; apply Qle_refl.
  - cbn [Qsum fold_right length]. fold (Qsum l). split.
    + apply (Qplus_le_compat 0 p 0 (Qsum l)); assumption.
    + rewrite Nat2Z.inj_succ, <- Z.add_1_l, inject_Z_plus.
      apply Qplus_le_compat; assumption.
Qed.

(** In a frame with distinct index labels every per-query precision and
    their mean lie between 0 and 1. *)
Theorem mean_precision_range (df : dataframe) (qids : list Z) :
  NoDup (map index df) ->
  qids <> [] ->
  (forall q, In q qids -> select_qid df q <> []) ->
  Forall (fun p => 0 <= p <= 1) (map (precision_of df) qids) /\
  exists m ret,
    mean_precision df qids = Ok (Fin m, ret) /\ 0 <= m <= 1.
Proof.
  intros Hnd Hne Hall.
  assert (Hr : Forall (fun p => 0 <= p <= 1) (map (precision_of df) qids)).
  { apply Forall_forall. intros p Hp. apply in_map_iff in Hp.
    destruct Hp as [q [<- _]]. apply quotient_range. now apply overlap_count_le. }
  split; [exact Hr|].
  rewrite (PrecisionFacts.mean_precision_ok df qids Hall).
  destruct qids as [|q qs]; [congruence|].
  cbn [map np_mean]. eexists. eexists. split; [reflexivity|].
  pose proof (Qsum_range _ Hr) as [H0 H1].
  set (l := precision_of df q :: map (precision_of df) qs) in *.
  assert (Hpos : 0 < inject_Z (Z.of_nat (length l))).
  { unfold l. cbn [length]. rewrite <- (Zlt_Qlt 0). lia. }
  split.
  - apply Qle_shift_div_l; [exact Hpos|]. now rewrite Qmult_0_l.
  - apply Qle_shift_div_r; [exact Hpos|]. now rewrite Qmult_1_l.
Qed.

Lemma mean_precision_range_witness :
  NoDup (map index [mkRow 0 1 [] [] 1 1; mkRow 1 1 [] [] 0 2]) /\
  [1%Z] <> [] /\
  (forall q, In q [1%Z] ->
             select_qid [mkRow 0 1 [] [] 1 1; mkRow 1 1 [] [] 0 2] q <> []) /\
  exists m ret,
    mean_precision [mkRow 0 1 [] [] 1 1; mkRow 1 1 [] [] 0 2] [1%Z]
      = Ok (Fin m, ret) /\ 0 <= m <= 1.
Proof.
  assert (H1 : NoDup (map index [mkRow 0 1 [] [] 1 1; mkRow 1 1 [] [] 0 2])).
  { simpl. constructor; [simpl; intros [H|[]]; discriminate|].
    constructor; [intros []|constructor]. }
  assert (H2 : [1%Z] <> []) by discriminate.
  assert (H3 : forall q, In q [1%Z] ->
             select_qid [mkRow 0 1 [] [] 1 1; mkRow 1 1 [] [] 0 2] q <> []).
  { intros q [<-|[]]. discriminate. }
  split; [exact H1|]. split; [exact H2|]. split; [exact H3|].
  exact (proj2 (mean_precision_range _ _ H1 H2 H3)).
Defined.



Lemma precision_agrees_up_to_100_witness :
  NoDup (map index [mkRow 0 1 [] [] 1 1; mkRow 1 1 [] [] 0 2]) /\
  (candidates [mkRow 0 1 [] [] 1 1; mkRow 1 1 [] [] 0 2] 1 <= 100)%nat /\
  precision_of [mkRow 0 1 [] [] 1 1; mkRow 1 1 [] [] 0 2] 1
  = spec_precision [mkRow 0 1 [] [] 1 1; mkRow 1 1 [] [] 0 2] 1.
Proof.
  assert (H1 : NoDup (map index [mkRow 0 1 [] [] 1 1; mkRow 1 1 [] [] 0 2])).
  { simpl. constructor; [simpl; intros [H|[]]; discriminate|].
    constructor; [intros []|constructor]. }
  assert (H2 : (candidates [mkRow 0 1 [] [] 1 1; mkRow 1 1 [] [] 0 2] 1 <= 100)%nat)
    by (vm_compute; lia).
  split; [exact H1|]. split; [exact H2|].
  apply (PrecisionFacts.precision_agrees_up_to_100 _ _ H1 H2).
  intros r [<-|[<-|[]]]; vm_compute; discriminate.
Defined.

End PrecisionMore.

(** ** The BM25 feature: which row a score belongs to *)

Module FeatureMore.
Import BM25.

Local Open Scope nat_scope.




Section Column.

Variable scorer : list (list token) -> list token -> list R.
Hypothesis scorer_length :
  forall corpus query, length (scorer corpus query) = length corpus.

(** With the script's qid list the feature does not raise and the
    positional assignment of the column goes through: the row at place [p]
    is paired with the score of the row at the [p]-th emitted position. *)
Theorem bm25_column_on_validation_qid (df : dataframe) :
  bm25_column scorer df (validation_qid df) =
  Ok (combine df (map (own_score scorer df)
                      (emitted_positions df (validation_qid df)))).
Proof.
  unfold bm25_column.
  rewrite FeatureFacts.bm25_feature_ok
    by (intros q; apply FeatureFacts.validation_qid_has_rows).
  rewrite (FeatureFacts.blocks_own_scores scorer scorer_length). simpl.
  unfold assign_column.
  rewrite length_map, FeatureFacts.validation_qid_emits_every_row, Nat.eqb_refl.
  reflexivity.
Qed.

End Column.

Lemma bm25_column_on_validation_qid_witness :
  (forall corpus query, length (get_scores corpus query) = length corpus) /\
  bm25_column get_scores interleaved (validation_qid interleaved) =
  Ok (combine interleaved
              (map (own_score get_scores interleaved)
                   (emitted_positions interleaved (validation_qid interleaved)))).
Proof.
  assert (H : forall corpus query, length (get_scores corpus query) = length corpus)
    by (intros; apply length_map).
  split; [exact H|].
  exact (bm25_column_on_validation_qid get_scores H interleaved).
Defined.

(** *** Grouped frames *)

Lemma combine_seq_app (A B : dataframe) (a : nat) :
  combine (seq a (length (A ++ B))) (A ++ B) =
  combine (seq a (length A)) A ++ combine (seq (a + length A) (length B)) B.
Proof.
  revert a. induction A as [|x A IH]; intros a; simpl.
  - now rewrite Nat.add_0_r.
  - rewrite IH. replace (S a + length A) with (a + S (length A)) by lia.
    reflexivity.
Qed.

Lemma positions_all (q : Z) (A : dataframe) (a : nat) :
  (forall r, In r A -> qid r = q) ->
  map fst (filter (fun c : nat * row => (qid (snd c) =? q)%Z)
                  (combine (seq a (length A)) A)) = seq a (length A).
Proof.
  revert a. induction A as [|x A IH]; intros a H; simpl; [reflexivity|].
  rewrite (proj2 (Z.eqb_eq _ _) (H x (or_introl eq_refl))). simpl.
  f_equal. apply IH. intros r Hr. apply H. now right.
Qed.

Lemma positions_none (q : Z) (A : dataframe) (a : nat) :
  (forall r, In r A -> qid r <> q) ->
  filter (fun c : nat * row => (qid (snd c) =? q)%Z)
         (combine (seq a (length A)) A) = [].
Proof.
  intros H. apply ListFacts.filter_none. intros [p r] Hc. simpl.
  apply Z.eqb_neq, H. now apply in_combine_r in Hc.
Qed.

Lemma flat_map_ext_in (A B : Type) (f g : A -> list B) (l : list A) :
  (forall x, In x l -> f x = g x) -> flat_map f l = flat_map g l.
Proof.
  induction l as [|x l IH]; intros H; simpl; [reflexivity|].
  rewrite (H x) by now left. f_equal. apply IH. intros; apply H; now right.
Qed.

Lemma grouped_positions (qids : list Z) :
  NoDup qids ->
  forall (l : dataframe) (a : nat),
    l = flat_map (select_qid l) qids ->
    flat_map (fun q => map fst (filter (fun c : nat * row => (qid (snd c) =? q)%Z)
                                       (combine (seq a (length l)) l))) qids
    = seq a (length l).
Proof.
  induction 1 as [|q qs Hq Hnd IH]; intros l a Hl.
  - simpl in Hl. subst l. reflexivity.
  - cbn [flat_map] in Hl.
    remember (select_qid l q) as A eqn:HA.
    remember (flat_map (select_qid l) qs) as B eqn:HB.
    subst l.
    assert (HqA : forall r, In r A -> qid r = q).
    { intros r Hr. rewrite HA in Hr. unfold select_qid in Hr.
      apply filter_In in Hr. now apply Z.eqb_eq. }
    assert (HqB : forall r, In r B -> In (qid r) qs).
    { intros r Hr. rewrite HB in Hr. apply in_flat_map in Hr.
      destruct Hr as [q' [Hq' Hr]]. unfold select_qid in Hr.
      apply filter_In in Hr. destruct Hr as [_ E]. apply Z.eqb_eq in E. congruence. }
    assert (HB' : B = flat_map (select_qid B) qs).
    { rewrite HB at 1. apply flat_map_ext_in. intros q' Hq'.
      unfold select_qid. rewrite filter_app.
      rewrite (ListFacts.filter_none _ (fun r => (qid r =? q')%Z) A); [reflexivity|].
      intros r Hr. apply Z.eqb_neq. rewrite (HqA r Hr). congruence. }
    cbn [flat_map]. rewrite combine_seq_app, filter_app, map_app.
    rewrite (positions_all q A a HqA).
    rewrite (positions_none q B); [|intros r Hr E; apply Hq; rewrite <- E; now apply HqB].
    rewrite app_nil_r.
    rewrite (flat_map_ext_in _ _ _
               (fun q' => map fst (filter (fun c : nat * row => (qid (snd c) =? q')%Z)
                                          (combine (seq (a + length A) (length B)) B)))).
    + rewrite (IH B (a + length A) HB'), length_app. symmetry. apply seq_app.
    + intros q' Hq'. cbv beta. rewrite filter_app, map_app.
      rewrite (positions_none q' A); [reflexivity|].
      intros r Hr. rewrite (HqA r Hr). congruence.
Qed.

(** For a list of distinct qids that all have a candidate row, and a
    scorer that returns one score per document, [bm25_feature] returns the
    rows' own scores in the order of the emitted positions; these
    positions are the row order exactly when the frame is the
    concatenation of its per-qid selections in the order of the list, and
    then the array holds at every place the score of its own row. *)
Theorem emitted_identity_iff_grouped
    (scorer : list (list token) -> list token -> list R)
    (df : dataframe) (qids : list Z) :
  (forall corpus query, length (scorer corpus query) = length corpus) ->
  NoDup qids ->
  (forall q, In q qids -> select_qid df q <> []) ->
  bm25_feature scorer df qids =
    Ok (map (own_score scorer df) (emitted_positions df qids)) /\
  (emitted_positions df qids = seq 0 (length df) <-> grouped_by df qids) /\
  (grouped_by df qids ->
   bm25_feature scorer df qids =
     Ok (map (own_score scorer df) (seq 0 (length df)))).
Proof.
  intros Hlen Hnd Hne.
  assert (E : bm25_feature scorer df qids =
              Ok (map (own_score scorer df) (emitted_positions df qids))).
  { rewrite FeatureFacts.bm25_feature_ok by exact Hne.
    now rewrite (FeatureFacts.blocks_own_scores scorer Hlen). }
  assert (G : grouped_by df qids -> emitted_positions df qids = seq 0 (length df)).
  { intros Hg. apply (grouped_positions qids Hnd df 0 Hg). }
  split; [exact E|]. split.
  - split; [apply FeatureFacts.identity_grouped | exact G].
  - intros Hg. rewrite E. now rewrite (G Hg).
Qed.

Lemma emitted_identity_iff_grouped_witness :
  (forall corpus query, length (get_scores corpus query) = length corpus) /\
  NoDup [1%Z; 2%Z] /\
  (forall q, In q [1%Z; 2%Z] -> select_qid interleaved q <> []) /\
  bm25_feature get_scores interleaved [1%Z; 2%Z] =
    Ok (map (own_score get_scores interleaved)
            (emitted_positions interleaved [1%Z; 2%Z])) /\
  (emitted_positions interleaved [1%Z; 2%Z] = seq 0 (length interleaved)
   <-> grouped_by interleaved [1%Z; 2%Z]).
Proof.
  assert (H0 : forall corpus query,
             length (get_scores corpus query) = length corpus)
    by (intros; apply length_map).
  assert (H : NoDup [1%Z; 2%Z]).
  { constructor; [simpl; intros [E|[]]; discriminate|].
    constructor; [intros []|constructor]. }
  assert (H1 : forall q, In q [1%Z; 2%Z] -> select_qid interleaved q <> []).
  { intros q [<-|[<-|[]]]; discriminate. }
  split; [exact H0|]. split; [exact H|]. split; [exact H1|].
  pose proof (emitted_identity_iff_grouped get_scores interleaved [1%Z; 2%Z]
                H0 H H1) as T.
  split; [exact (proj1 T) | exact (proj1 (proj2 T))].
Defined.

End FeatureMore.

(** ** Mean NDCG: what the loop returns, and when it raises *)

Module NDCGMore.
Import NDCG.

Local Open Scope nat_scope.

Lemma mean_ndcg_ratios (df : dataframe) (retrieved : list nat) :
  mean_ndcg df retrieved =
  (l <- ratios (removelast (chunks (relevant (sort_values df))))
               (IDCG_of retrieved) ;;
   Ok (np_mean l)).
Proof.
  unfold mean_ndcg. now rewrite NDCGFacts.ndcg_terms_chunks.
Qed.

Lemma runs_nonempty (l : dataframe) : Forall (fun g => g <> []) (runs l).
Proof.
  induction l as [|r rs IH]; [constructor|].
  simpl. destruct (runs rs) as [|[|r' g] gs].
  - repeat constructor. discriminate.
  - repeat constructor. discriminate.
  - inversion IH as [|? ? H1 H2]; subst.
    destruct (qid r =? qid r')%Z; repeat constructor; try discriminate; assumption.
Qed.

Lemma chunks_concat (l : dataframe) : concat (chunks l) = l.
Proof.
  destruct l as [|r rest]; [reflexivity|].
  unfold chunks. cbn [concat app]. now rewrite NDCGFacts.runs_concat.
Qed.

Lemma chunks_nonempty (l : dataframe) : Forall (fun g => g <> []) (chunks l).
Proof.
  destruct l as [|r rest]; [constructor|].
  unfold chunks. constructor; [discriminate | apply runs_nonempty].
Qed.

Lemma gain_pos (i : Z) : (1 <= i)%Z -> (0 < gain i)%R.
Proof.
  intros H. unfold gain. apply NDCGFacts.inv_log2_pos.
  apply IZR_le in H. lra.
Qed.

Lemma dcg_pos (c : dataframe) :
  c <> [] -> Forall (fun r => (1 <= rank r)%Z) c -> (0 < dcg c)%R.
Proof.
  intros Hc H.
  assert (Hn : forall c', Forall (fun r => (1 <= rank r)%Z) c' -> (0 <= dcg c')%R).
  { induction 1 as [|r c' Hr Hc' IH]; [unfold dcg; simpl; lra|].
    rewrite NDCGFacts.dcg_cons. pose proof (gain_pos _ Hr). lra. }
  destruct c as [|r c]; [congruence|].
  inversion H as [|? ? Hr Hc']; subst.
  rewrite NDCGFacts.dcg_cons.
  pose proof (gain_pos _ Hr). pose proof (Hn c Hc'). lra.
Qed.

Lemma idcg_ge_1 (k : nat) : 1 <= k -> (1 <= idcg k)%R.
Proof.
  intros H. rewrite <- NDCGFacts.idcg_1. now apply NDCGFacts.idcg_le.
Qed.

(** Whichever order the sort leaves the rows of one qid in: when every
    retrieved count is at least 1 and every relevant row has a rank of at
    least 1, [mean_ndcg] is the mean of the quotients d/IDCG[j] over all
    chunks of the relevant rows of the sorted frame but the last one,
    where the chunks are non-empty and cut these rows, in their order,
    into the first relevant row on its own and the runs of equal qid of
    the remaining ones; every IDCG entry is at least 1 and every sum d is
    positive, so every quotient is one of positive reals. *)
Theorem mean_ndcg_chunks (df s : dataframe) (retrieved : list nat) :
  sorted_by_qid df s ->
  Forall (fun k => 1 <= k) retrieved ->
  Forall (fun r => (1 <= rank r)%Z) (relevant df) ->
  mean_ndcg_on s retrieved =
    (l <- ratios (removelast (chunks (relevant s))) (IDCG_of retrieved) ;;
     Ok (np_mean l)) /\
  concat (chunks (relevant s)) = relevant s /\
  Forall (fun c => c <> [] /\ (0 < dcg c)%R) (chunks (relevant s)) /\
  Forall (fun k => (1 <= k)%R) (IDCG_of retrieved).
Proof.
  intros [Hp Hs] Hret Hrank.
  split; [|split; [|split]].
  - unfold mean_ndcg_on. now rewrite (NDCGFacts.ndcg_terms_on_chunks s retrieved Hs).
  - apply chunks_concat.
  - assert (Hrs : Forall (fun r => (1 <= rank r)%Z) (relevant s)).
    { rewrite Forall_forall in *. intros r Hr. apply Hrank.
      unfold relevant in *. apply filter_In in Hr. apply filter_In.
      split; [|tauto].
      apply (Permutation_in r (Permutation_sym Hp)). tauto. }
    pose proof (chunks_nonempty (relevant s)) as Hne.
    rewrite Forall_forall in *. intros c Hc.
    split; [now apply Hne|].
    apply dcg_pos; [now apply Hne|].
    rewrite Forall_forall. intros r Hr. apply Hrs.
    rewrite <- (chunks_concat (relevant s)). apply in_concat. now exists c.
  - unfold IDCG_of. rewrite Forall_forall in *. intros k Hk.
    apply in_map_iff in Hk. destruct Hk as [n [<- Hn]].
    apply idcg_ge_1, Hret, Hn.
Qed.

Lemma one_query_swapped_sorted : sorted_by_qid one_query one_query_swapped.
Proof.
  split; [apply perm_swap|].
  unfold one_query_swapped. repeat constructor; unfold by_qid; simpl; lia.
Qed.

Lemma mean_ndcg_chunks_witness :
  sorted_by_qid one_query one_query_swapped /\
  Forall (fun k => 1 <= k) [2] /\
  Forall (fun r => (1 <= rank r)%Z) (relevant one_query) /\
  mean_ndcg_on one_query_swapped [2] =
    (l <- ratios (removelast (chunks (relevant one_query_swapped))) (IDCG_of [2]) ;;
     Ok (np_mean l)).
Proof.
  assert (H1 : Forall (fun k => 1 <= k) [2]) by (repeat constructor).
  assert (H2 : Forall (fun r => (1 <= rank r)%Z) (relevant one_query)).
  { repeat constructor; simpl; lia. }
  split; [exact one_query_swapped_sorted|]. split; [exact H1|]. split; [exact H2|].
  exact (proj1 (mean_ndcg_chunks one_query one_query_swapped [2]
                  one_query_swapped_sorted H1 H2)).
Defined.

(** *** [IndexError] *)

Lemma ratios_ok (cs : list dataframe) :
  forall I : list R,
    length cs <= length I ->
    exists l, ratios cs I = Ok l /\ length l = length cs.
Proof.
  induction cs as [|c cs IH]; intros I H; simpl.
  - exists []. auto.
  - destruct I as [|k I]; simpl in H; [lia|].
    destruct (IH I) as [l [E Hl]]; [lia|].
    rewrite E. simpl. exists (dcg c / k :: l)%R. split; [reflexivity | simpl; lia].
Qed.

Lemma ratios_raises (cs : list dataframe) :
  forall I : list R, length I < length cs -> ratios cs I = Raise IndexError.
Proof.
  induction cs as [|c cs IH]; intros I H; simpl in *; [lia|].
  destruct I as [|k I]; [reflexivity|].
  rewrite IH by (simpl in H; lia). reflexivity.
Qed.

Lemma removelast_length (A : Type) (l : list A) :
  length (removelast l) = length l - 1.
Proof.
  induction l as [|x [|y l] IH]; simpl in *; try reflexivity. lia.
Qed.

Lemma mean_ndcg_raises_or_returns (df : dataframe) (retrieved : list nat) :
  let n := length (chunks (relevant (sort_values df))) - 1 in
  (length retrieved < n -> mean_ndcg df retrieved = Raise IndexError) /\
  (n <= length retrieved ->
   exists l, ndcg_terms df retrieved = Ok l /\ length l = n /\
             mean_ndcg df retrieved = Ok (np_mean l)).
Proof.
  intros n. split; intros H.
  - rewrite mean_ndcg_ratios, ratios_raises; [reflexivity|].
    unfold IDCG_of. rewrite length_map, removelast_length. exact H.
  - destruct (ratios_ok (removelast (chunks (relevant (sort_values df))))
                        (IDCG_of retrieved)) as [l [E Hl]].
    { unfold IDCG_of. rewrite length_map, removelast_length. exact H. }
    exists l. rewrite NDCGFacts.ndcg_terms_chunks, mean_ndcg_ratios, E.
    rewrite removelast_length in Hl. auto.
Qed.

(** [mean_ndcg] raises [IndexError] exactly when [retrieved] has fewer
    entries than there are chunks to flush, one less than the number of
    chunks; otherwise it returns, and the list [NDCG] has that many
    terms. *)
Theorem mean_ndcg_index_error (df : dataframe) (retrieved : list nat) :
  let n := length (chunks (relevant (sort_values df))) - 1 in
  (length retrieved < n -> mean_ndcg df retrieved = Raise IndexError) /\
  (n <= length retrieved ->
   exists l, ndcg_terms df retrieved = Ok l /\ length l = n /\
             mean_ndcg df retrieved = Ok (np_mean l)).
Proof. exact (mean_ndcg_raises_or_returns df retrieved). Qed.

Lemma mean_ndcg_index_error_witness :
  (length (@nil nat) < length (chunks (relevant (sort_values two_queries))) - 1 /\
   mean_ndcg two_queries [] = Raise IndexError) /\
  (length (chunks (relevant (sort_values two_queries))) - 1 <= length [1; 1] /\
   exists l, ndcg_terms two_queries [1; 1] = Ok l /\
             length l = length (chunks (relevant (sort_values two_queries))) - 1 /\
             mean_ndcg two_queries [1; 1] = Ok (np_mean l)).
Proof.
  assert (H1 : length (@nil nat)
               < length (chunks (relevant (sort_values two_queries))) - 1)
    by (vm_compute; lia).
  assert (H2 : length (chunks (relevant (sort_values two_queries))) - 1
               <= length [1; 1])
    by (vm_compute; lia).
  split.
  - split; [exact H1|]. exact (proj1 (mean_ndcg_index_error two_queries []) H1).
  - split; [exact H2|]. exact (proj2 (mean_ndcg_index_error two_queries [1; 1]) H2).
Defined.

(** *** When the first query has a single relevant row *)




(** *** The relevant rows of the sorted frame *)

Lemma insert_by_qid_front (r : row) (l : dataframe) :
  Forall (by_qid r) l -> insert_by_qid r l = r :: l.
Proof.
  intros H. destruct l as [|y l]; [reflexivity|].
  inversion H as [|? ? Hy _]; subst. unfold by_qid in Hy. simpl.
  now rewrite (proj2 (Z.leb_le _ _) Hy).
Qed.

Lemma filter_insert_by_qid (f : row -> bool) (r : row) (l : dataframe) :
  StronglySorted by_qid l ->
  filter f (insert_by_qid r l) =
  if f r then insert_by_qid r (filter f l) else filter f l.
Proof.
  induction 1 as [|y l Hs IH Hy]; simpl.
  - destruct (f r); reflexivity.
  - destruct (qid r <=? qid y)%Z eqn:E.
    + cbn [filter]. destruct (f r) eqn:Er; [|reflexivity].
      destruct (f y) eqn:Ey.
      * cbn [insert_by_qid]. now rewrite E.
      * symmetry. apply insert_by_qid_front.
        apply Z.leb_le in E. rewrite Forall_forall in *.
        intros x Hx. apply filter_In in Hx. destruct Hx as [Hx _].
        specialize (Hy x Hx). unfold by_qid in *. lia.
    + cbn [filter]. rewrite IH. destruct (f y) eqn:Ey, (f r) eqn:Er;
        try reflexivity.
      cbn [insert_by_qid]. now rewrite E.
Qed.

Lemma relevant_sort_values (df : dataframe) :
  relevant (sort_values df) = sort_values (relevant df).
Proof.
  unfold relevant. induction df as [|r df IH]; [reflexivity|].
  cbn [sort_values fold_right]. fold (sort_values df).
  rewrite filter_insert_by_qid by apply NDCGFacts.sort_values_sorted.
  cbn [filter]. destruct (relevancy r =? 1)%Z; [|exact IH].
  cbn [fold_right]. fold (sort_values (filter (fun r0 => (relevancy r0 =? 1)%Z) df)).
  now rewrite IH.
Qed.

(** *** The empty mean *)

Lemma insert_by_qid_length (r : row) (l : dataframe) :
  length (insert_by_qid r l) = S (length l).
Proof.
  induction l as [|y l IH]; simpl; [reflexivity|].
  destruct (qid r <=? qid y)%Z; simpl; [reflexivity | now rewrite IH].
Qed.

Lemma sort_values_length (df : dataframe) : length (sort_values df) = length df.
Proof.
  induction df as [|r df IH]; simpl; [reflexivity|].
  now rewrite insert_by_qid_length, IH.
Qed.

Lemma relevant_sorted_length (df : dataframe) :
  length (relevant (sort_values df)) = length (relevant df).
Proof. now rewrite relevant_sort_values, sort_values_length. Qed.

(** [mean_ndcg] returns [nan] exactly when the frame has at most one
    relevant row, whatever [retrieved] is: no value is then appended. *)
Theorem mean_ndcg_nan_iff (df : dataframe) (retrieved : list nat) :
  mean_ndcg df retrieved = Ok NaN <-> length (relevant df) <= 1.
Proof.
  rewrite mean_ndcg_ratios, <- relevant_sorted_length.
  destruct (relevant (sort_values df)) as [|r [|r' rest]].
  - simpl. split; [lia | reflexivity].
  - simpl. split; [lia | reflexivity].
  - assert (E : exists c cs, removelast (chunks (r :: r' :: rest)) = c :: cs).
    { unfold chunks. destruct (NDCGFacts.runs_cons r' rest) as [g [gs ->]].
      exists [r], (removelast ((r' :: g) :: gs)). reflexivity. }
    destruct E as [c [cs ->]]. split; [|simpl; lia].
    cbn [ratios]. destruct (IDCG_of retrieved) as [|k I]; [discriminate|].
    destruct (ratios cs I); simpl; discriminate.
Qed.

(** *** The call of the script *)

Lemma fresh_NoDup (gs : list dataframe) :
  forall done,
    fresh done gs ->
    NoDup (map (fun g => match g with [] => 0%Z | r :: _ => qid r end) gs) /\
    (forall q, In q done ->
       ~ In q (map (fun g => match g with [] => 0%Z | r :: _ => qid r end) gs)).
Proof.
  induction gs as [|g gs IH]; intros done Hf; simpl.
  - split; [constructor | auto].
  - destruct g as [|r g]; [contradiction|].
    destruct Hf as [Hnew [_ Hf]]. destruct (IH _ Hf) as [Hnd Hdis].
    split.
    + constructor; [|exact Hnd]. apply Hdis, in_or_app. right. now left.
    + intros q Hq [E|Hin]; [congruence|].
      apply (Hdis q); [apply in_or_app; now left | exact Hin].
Qed.

Lemma sort_values_In (df : dataframe) (r : row) :
  In r (sort_values df) -> In r df.
Proof.
  induction df as [|x df IH]; simpl; [auto|].
  intros H. apply NDCGFacts.insert_by_qid_In in H.
  destruct H as [->|H]; [now left | right; now apply IH].
Qed.

Lemma runs_heads (l : dataframe) (g : dataframe) :
  In g (runs l) -> exists r g', g = r :: g' /\ In r l.
Proof.
  intros H. pose proof (NDCGFacts.runs_concat l) as Hc.
  assert (Hne : forall l' g0, In g0 (runs l') -> g0 <> []).
  { induction l' as [|x l' IH']; [intros g0 []|].
    intros g0 Hg0. simpl in Hg0.
    destruct (runs l') as [|[|r' g1] gs] eqn:E.
    - destruct Hg0 as [<-|[]]. discriminate.
    - destruct Hg0 as [<-|[]]. discriminate.
    - destruct (qid x =? qid r')%Z.
      + destruct Hg0 as [<-|Hg0]; [discriminate|]. apply IH'. now right.
      + destruct Hg0 as [<-|Hg0]; [discriminate|]. apply IH'. exact Hg0. }
  destruct g as [|r g']; [now apply Hne in H|].
  exists r, g'. split; [reflexivity|].
  rewrite <- Hc. apply in_concat. exists (r :: g'). split; [exact H | now left].
Qed.

Lemma queries_with_relevant_le (df : dataframe) :
  length (queries_with_relevant df) <= length (validation_qid df).
Proof.
  apply NoDup_incl_length.
  - unfold queries_with_relevant.
    apply (fresh_NoDup _ []).
    apply NDCGFacts.runs_fresh; [apply NDCGFacts.relevant_sorted | intros q r []].
  - intros q Hq. unfold queries_with_relevant in Hq. apply in_map_iff in Hq.
    destruct Hq as [g [E Hg]]. apply runs_heads in Hg.
    destruct Hg as [r [g' [-> Hr]]]. subst q.
    unfold validation_qid. apply FeatureFacts.unique_In. apply in_map.
    unfold relevant in Hr. apply filter_In in Hr. destruct Hr as [Hr _].
    now apply sort_values_In.
Qed.

Lemma runs_length_cons (r : row) (rest : dataframe) :
  length (runs rest) <= length (runs (r :: rest)).
Proof.
  destruct rest as [|x rest]; [simpl; lia|].
  destruct (NDCGFacts.runs_cons x rest) as [g [gs E]].
  change (runs (r :: x :: rest))
    with (match runs (x :: rest) with
          | (r' :: g) :: gs =>
              if (qid r =? qid r')%Z then (r :: r' :: g) :: gs
              else [r] :: (r' :: g) :: gs
          | _ => [[r]]
          end).
  rewrite E. destruct (qid r =? qid x)%Z; simpl; lia.
Qed.

Lemma chunks_le_queries (df : dataframe) :
  length (chunks (relevant (sort_values df))) - 1
  <= length (queries_with_relevant df).
Proof.
  unfold queries_with_relevant. rewrite length_map.
  destruct (relevant (sort_values df)) as [|r rest]; [simpl; lia|].
  unfold chunks. cbn [length]. rewrite Nat.sub_succ, Nat.sub_0_r.
  apply runs_length_cons.
Qed.

(** With the list [retrieved] that [mean_precision] returns for the
    script's qid list, [mean_ndcg] does not raise, and every entry of IDCG
    it divides by is positive. *)
Theorem mean_ndcg_after_mean_precision (df : dataframe) (m : float64 Q)
    (retrieved : list nat) :
  Precision.mean_precision df (validation_qid df) = Ok (m, retrieved) ->
  (exists v, mean_ndcg df retrieved = Ok v) /\
  Forall (fun k => (0 < k)%R) (IDCG_of retrieved).
Proof.
  intros H.
  destruct (PrecisionMore.mean_precision_validation df) as [E Hr].
  rewrite E in H. inversion H as [[Hm Hret]]. clear H. split.
  - destruct (proj2 (mean_ndcg_raises_or_returns df
                      (map (Precision.K_of df) (validation_qid df))))
      as [l [_ [_ Hl]]]; [|eauto].
    rewrite length_map.
    apply Nat.le_trans with (length (queries_with_relevant df));
      [apply chunks_le_queries | apply queries_with_relevant_le].
  - unfold IDCG_of. apply Forall_forall. intros k Hk. apply in_map_iff in Hk.
    destruct Hk as [n [<- Hn]]. rewrite Forall_forall in Hr.
    specialize (Hr n Hn).
    apply Rle_lt_trans with (idcg 0); [unfold idcg; simpl; lra|].
    apply NDCGFacts.idcg_lt. lia.
Qed.

Lemma mean_ndcg_after_mean_precision_witness :
  exists m,
    Precision.mean_precision two_queries (validation_qid two_queries)
      = Ok (m, [1; 1]) /\
    (exists v, mean_ndcg two_queries [1; 1] = Ok v) /\
    Forall (fun k => (0 < k)%R) (IDCG_of [1; 1]).
Proof.
  eexists.
  assert (H : Precision.mean_precision two_queries (validation_qid two_queries)
              = Ok (Precision.np_mean
                      (map (Precision.precision_of two_queries)
                           (validation_qid two_queries)), [1; 1]))
    by reflexivity.
  split; [exact H|].
  exact (mean_ndcg_after_mean_precision two_queries _ _ H).
Defined.

End NDCGMore.

(** ** Text cleaning *)

Module TextFacts.
Import Text.

Local Open Scope nat_scope.

(** *** Characters *)

Lemma code_lower_char_upper (c : ascii) :
  is_upper c = true -> code (lower_char c) = code c + 32.
Proof.
  intros H. unfold lower_char. rewrite H. unfold code.
  apply nat_ascii_embedding. unfold is_upper, code in H.
  apply andb_true_iff in H. destruct H as [_ H]. apply Nat.leb_le in H. lia.
Qed.

Lemma kept_space : kept space = false.
Proof. reflexivity. Qed.

Lemma upper_range (c : ascii) : is_upper c = true <-> 65 <= code c <= 90.
Proof. unfold is_upper. rewrite andb_true_iff, !Nat.leb_le. tauto. Qed.

Lemma lower_range (c : ascii) : is_lower c = true <-> 97 <= code c <= 122.
Proof. unfold is_lower. rewrite andb_true_iff, !Nat.leb_le. tauto. Qed.

Lemma lower_not_upper (c : ascii) : is_lower c = true -> is_upper c = false.
Proof.
  rewrite lower_range. intros H. destruct (is_upper c) eqn:E; [|reflexivity].
  apply upper_range in E. lia.
Qed.

Lemma apostrophe_not_upper (c : ascii) : is_apostrophe c = true -> is_upper c = false.
Proof.
  unfold is_apostrophe. rewrite Nat.eqb_eq. intros H.
  destruct (is_upper c) eqn:E; [|reflexivity]. apply upper_range in E. lia.
Qed.

Lemma lower_char_is_lower (c : ascii) :
  is_upper c = true -> is_lower (lower_char c) = true.
Proof.
  intros H. apply lower_range. rewrite (code_lower_char_upper c H).
  apply upper_range in H. lia.
Qed.

Lemma lower_char_space (c : ascii) : lower_char c = space -> c = space.
Proof.
  intros H. destruct (is_upper c) eqn:E.
  - pose proof (code_lower_char_upper c E) as Hc. rewrite H in Hc.
    apply upper_range in E. change (code space) with 32 in Hc. lia.
  - unfold lower_char in H. now rewrite E in H.
Qed.

Lemma kept_lower_char (c : ascii) : kept (lower_char c) = kept c.
Proof.
  destruct (is_upper c) eqn:E.
  - unfold kept at 2. rewrite E. simpl.
    unfold kept. rewrite (lower_char_is_lower c E). now rewrite orb_true_r.
  - unfold lower_char. now rewrite E.
Qed.

(** *** The substitution *)

Lemma re_sub_chars (s : list ascii) :
  forall b c, In c (re_sub b s) -> kept c = true \/ c = space.
Proof.
  induction s as [|x s IH]; intros b c H; simpl in H; [contradiction|].
  destruct (kept x) eqn:E.
  - destruct H as [<-|H]; [now left | now apply (IH false)].
  - destruct b.
    + now apply (IH true).
    + destruct H as [<-|H]; [now right | now apply (IH true)].
Qed.

Lemma re_sub_single_spaced (s : list ascii) :
  forall b,
    single_spaced (re_sub b s) /\
    (b = true -> match re_sub b s with [] => True | c :: _ => c <> space end).
Proof.
  induction s as [|x s IH]; intros b; simpl; [auto|].
  destruct (kept x) eqn:E.
  - destruct (IH false) as [Hs _]. split.
    + split; [|exact Hs]. destruct (re_sub false s); [exact I|].
      intros [-> _]. rewrite kept_space in E. discriminate.
    + intros _ ->. rewrite kept_space in E. discriminate.
  - destruct b.
    + apply IH.
    + destruct (IH true) as [Hs Hh]. split; [|discriminate].
      split; [|exact Hs]. specialize (Hh eq_refl).
      destruct (re_sub true s); [exact I|]. intros [_ ->]. now apply Hh.
Qed.

Lemma lower_single_spaced (s : list ascii) :
  single_spaced s -> single_spaced (lower s).
Proof.
  unfold lower. induction s as [|c s IH]; [auto|].
  intros [H Hs]. simpl. split; [|now apply IH].
  destruct s as [|c' s]; [exact I|]. simpl.
  intros [H1 H2]. apply H. split; now apply lower_char_space.
Qed.

Lemma normalise_chars_spaced (row : list ascii) :
  (forall c, In c (normalise row) ->
             is_lower c = true \/ is_apostrophe c = true \/ c = space) /\
  single_spaced (normalise row).
Proof.
  split.
  - intros c H. unfold normalise, lower in H. apply in_map_iff in H.
    destruct H as [x [<- Hx]]. apply re_sub_chars in Hx.
    destruct (is_upper x) eqn:E.
    + left. now apply lower_char_is_lower.
    + unfold lower_char. rewrite E. destruct Hx as [Hx|Hx]; [|auto].
      unfold kept in Hx. rewrite E in Hx. simpl in Hx.
      apply orb_true_iff in Hx. tauto.
  - apply lower_single_spaced. apply (re_sub_single_spaced row false).
Qed.

(** The text handed to spaCy consists of small letters, apostrophes and
    single spaces. *)
Theorem normalise_alphabet (row : list ascii) :
  (forall c, In c (normalise row) ->
             is_lower c = true \/ is_apostrophe c = true \/ c = space) /\
  single_spaced (normalise row).
Proof. exact (normalise_chars_spaced row). Qed.

(** *** Texts that are already normal *)

Lemma re_sub_fixed (t : list ascii) :
  (forall c, In c t -> kept c = true \/ c = space) ->
  single_spaced t ->
  re_sub false t = t /\
  (match t with [] => True | c :: _ => c <> space end -> re_sub true t = t).
Proof.
  induction t as [|c t IH]; intros Hc Hs; [auto|].
  destruct Hs as [Hh Hs].
  destruct IH as [IH1 IH2]; [intros x Hx; apply Hc; now right | exact Hs |].
  simpl. destruct (kept c) eqn:E.
  - rewrite IH1. auto.
  - assert (c = space).
    { destruct (Hc c (or_introl eq_refl)); [congruence | assumption]. }
    subst c. split; [|intros H; congruence].
    f_equal. apply IH2. destruct t as [|c' t]; [exact I|].
    intros ->. now apply Hh.
Qed.

Lemma lower_fixed (t : list ascii) :
  (forall c, In c t -> is_upper c = false) -> lower t = t.
Proof.
  intros H. unfold lower. induction t as [|c t IH]; [reflexivity|].
  simpl. unfold lower_char at 1. rewrite (H c (or_introl eq_refl)).
  f_equal. apply IH. intros x Hx. apply H. now right.
Qed.

(** Normalising a normalised text changes nothing. *)
Theorem normalise_idempotent (row : list ascii) :
  normalise (normalise row) = normalise row.
Proof.
  destruct (normalise_chars_spaced row) as [Hc Hs].
  unfold normalise at 1.
  destruct (re_sub_fixed (normalise row)) as [-> _]; [|exact Hs|].
  - intros c H. destruct (Hc c H) as [H1|[H1|H1]]; [left|left|now right].
    + unfold kept. rewrite H1. now rewrite orb_true_r.
    + unfold kept. rewrite H1. now rewrite orb_true_r.
  - apply lower_fixed. intros c H. destruct (Hc c H) as [H1|[H1| ->]].
    + now apply lower_not_upper.
    + now apply apostrophe_not_upper.
    + reflexivity.
Qed.

Lemma re_sub_kept (s : list ascii) :
  forall b, filter kept (re_sub b s) = filter kept s.
Proof.
  induction s as [|x s IH]; intros b; simpl; [reflexivity|].
  destruct (kept x) eqn:E; simpl.
  - now rewrite E, IH.
  - destruct b; simpl; apply IH.
Qed.

(** The letters and apostrophes of a text survive in their order, the
    capital letters as small ones; everything else is dropped or turned
    into spaces. *)
Theorem normalise_keeps_letters (row : list ascii) :
  filter kept (normalise row) = lower (filter kept row).
Proof.
  unfold normalise, lower.
  rewrite <- (re_sub_kept row false).
  induction (re_sub false row) as [|c s IH]; simpl; [reflexivity|].
  rewrite kept_lower_char. destruct (kept c); simpl; now rewrite IH.
Qed.

(** *** [cleaning] *)

Section Cleaning.

Variable char : Type.
Variable isspace : char -> bool.
Variable blank : char.

Lemma split_from_spec (s : list char) :
  forall cur,
    nospace isspace cur ->
    Forall (word isspace) (split_from isspace cur s) /\
    concat (split_from isspace cur s)
    = cur ++ filter (fun c => negb (isspace c)) s.
Proof.
  induction s as [|c s IH]; intros cur Hcur; simpl.
  - destruct cur as [|x cur]; simpl; [auto|]. split.
    + constructor; [|constructor]. split; [discriminate | exact Hcur].
    + now rewrite !app_nil_r.
  - destruct (isspace c) eqn:E; simpl.
    + destruct (IH [] eq_refl) as [Hw Hc]. destruct cur as [|x cur].
      * auto.
      * split.
        -- constructor; [|exact Hw]. split; [discriminate | exact Hcur].
        -- simpl. now rewrite Hc.
    + assert (Hn : nospace isspace (cur ++ [c])).
      { unfold nospace. rewrite forallb_app. unfold nospace in Hcur.
        rewrite Hcur. simpl. now rewrite E. }
      destruct (IH _ Hn) as [Hw Hc]. split; [exact Hw|].
      now rewrite Hc, <- app_assoc.
Qed.

(** Every token that [cleaning] returns is non-empty and free of
    whitespace, and the tokens together are the characters of the kept
    lemmas that are not whitespace, in their order. *)
Theorem cleaning_words (doc : list (spacy_token char)) :
  Forall (word isspace) (cleaning isspace blank doc) /\
  concat (cleaning isspace blank doc)
  = filter (fun c => negb (isspace c)) (join blank (txt doc)).
Proof.
  unfold cleaning, split. apply (split_from_spec _ [] eq_refl).
Qed.

Hypothesis blank_isspace : isspace blank = true.

Lemma split_from_app (w rest : list char) :
  nospace isspace w ->
  forall cur,
    split_from isspace cur (w ++ rest) = split_from isspace (cur ++ w) rest.
Proof.
  induction w as [|c w IH]; intros Hw cur; simpl.
  - now rewrite app_nil_r.
  - unfold nospace in Hw. simpl in Hw. apply andb_true_iff in Hw.
    destruct Hw as [Hc Hw]. apply negb_true_iff in Hc. rewrite Hc.
    rewrite IH by exact Hw. now rewrite <- app_assoc.
Qed.

Lemma split_join (l : list (list char)) :
  Forall (word isspace) l -> split isspace (join blank l) = l.
Proof.
  unfold split. induction 1 as [|w l [Hne Hw] Hl IH]; [reflexivity|].
  simpl. destruct l as [|w' l].
  - rewrite <- (app_nil_r w) at 1. rewrite split_from_app by exact Hw.
    simpl. destruct w; [congruence | reflexivity].
  - rewrite split_from_app by exact Hw. simpl. rewrite blank_isspace.
    destruct w; [congruence|]. f_equal. exact IH.
Qed.

(** When no lemma of the document holds a whitespace character, joining
    and splitting is the identity: [cleaning] returns the lemmas of the
    tokens that are not stop words and have more than one character, so
    every returned token has more than one character. *)
Theorem cleaning_round_trip (doc : list (spacy_token char)) :
  (forall t, In t doc -> forallb (fun c => negb (isspace c)) (lemma_ t) = true) ->
  cleaning isspace blank doc = txt doc /\
  Forall (fun w => 1 < length w) (cleaning isspace blank doc).
Proof.
  intros H.
  assert (Hlen : Forall (fun w => 1 < length w) (txt doc)).
  { apply Forall_forall. intros w Hw. unfold txt in Hw. apply in_map_iff in Hw.
    destruct Hw as [t [<- Ht]]. apply filter_In in Ht. destruct Ht as [_ Ht].
    apply andb_true_iff in Ht. destruct Ht as [_ Ht]. now apply Nat.ltb_lt. }
  assert (E : cleaning isspace blank doc = txt doc).
  { unfold cleaning. apply split_join. apply Forall_forall. intros w Hw.
    split.
    - rewrite Forall_forall in Hlen. specialize (Hlen w Hw).
      destruct w; [simpl in Hlen; lia | discriminate].
    - unfold txt in Hw. apply in_map_iff in Hw. destruct Hw as [t [<- Ht]].
      apply filter_In in Ht. destruct Ht as [Ht _]. now apply H. }
  split; [exact E | now rewrite E].
Qed.

End Cleaning.

Lemma cleaning_round_trip_witness :
  let isspace := fun c : ascii => Ascii.eqb c " " in
  let doc := [ mkToken ["t"; "h"; "e"]%char true;
               mkToken ["c"; "a"; "t"]%char false;
               mkToken ["s"]%char false ] in
  isspace " "%char = true /\
  (forall t, In t doc -> forallb (fun c => negb (isspace c)) (lemma_ t) = true) /\
  cleaning isspace " "%char doc = [["c"; "a"; "t"]%char].
Proof.
  intros isspace doc.
  assert (H1 : isspace " "%char = true) by reflexivity.
  assert (H2 : forall t, In t doc ->
                         forallb (fun c => negb (isspace c)) (lemma_ t) = true).
  { intros t [<-|[<-|[<-|[]]]]; reflexivity. }
  split; [exact H1|]. split; [exact H2|].
  exact (proj1 (cleaning_round_trip ascii isspace " "%char H1 doc H2)).
Defined.

End TextFacts.

(** ** Clean text by id *)

Module TablesFacts.
Import Tables.

Local Open Scope nat_scope.

Lemma unique_of_NoDup (l : list Z) : NoDup l -> unique l = l.
Proof.
  induction 1 as [|x l Hx Hnd IH]; simpl; [reflexivity|].
  rewrite IH. f_equal. apply ListFacts.filter_all.
  intros y Hy. apply negb_true_iff, Z.eqb_neq. congruence.
Qed.

Section Columns.

Variable A T V : Type.
Variable key : A -> Z.
Variable column : A -> T.
Variable cleaner : T -> V.

Lemma map_key_filter (k : Z) (l : list A) :
  map key (filter (fun r => negb (key r =? k)%Z) l)
  = filter (fun y => negb (y =? k)%Z) (map key l).
Proof.
  induction l as [|r l IH]; simpl; [reflexivity|].
  destruct (key r =? k)%Z; simpl; now rewrite IH.
Qed.

(** The ids of the deduplicated frame are the distinct ids of the frame,
    in the same order: the two lists that are zipped into the dict line
    up. *)
Lemma drop_duplicates_keys (df : list A) :
  map key (drop_duplicates key df) = unique (map key df).
Proof.
  induction df as [|r df IH]; simpl; [reflexivity|].
  now rewrite map_key_filter, IH.
Qed.

Lemma find_filter_other (k k0 : Z) (l : list A) :
  k <> k0 ->
  find (fun r => (key r =? k)%Z) (filter (fun r => negb (key r =? k0)%Z) l)
  = find (fun r => (key r =? k)%Z) l.
Proof.
  intros Hk. induction l as [|r l IH]; simpl; [reflexivity|].
  destruct (key r =? k0)%Z eqn:E0; simpl.
  - apply Z.eqb_eq in E0.
    destruct (key r =? k)%Z eqn:E; [apply Z.eqb_eq in E; congruence | exact IH].
  - destruct (key r =? k)%Z; [reflexivity | exact IH].
Qed.

Lemma find_drop_duplicates (k : Z) (df : list A) :
  find (fun r => (key r =? k)%Z) (drop_duplicates key df)
  = find (fun r => (key r =? k)%Z) df.
Proof.
  induction df as [|r df IH]; simpl; [reflexivity|].
  destruct (key r =? k)%Z eqn:E; [reflexivity|].
  apply Z.eqb_neq in E. rewrite find_filter_other by congruence. exact IH.
Qed.

(** Entering the pairs (id, g row) of rows with distinct ids: the lookup
    of an id finds the row that has it. *)
Lemma dict_of_rows (g : A -> V) (l : list A) :
  NoDup (map key l) ->
  forall (d0 : dict V) (k : Z),
    fold_left (fun d kv => dict_set d (fst kv) (snd kv))
              (combine (map key l) (map g l)) d0 k
    = match find (fun r => (key r =? k)%Z) l with
      | Some r => Some (g r)
      | None => d0 k
      end.
Proof.
  induction l as [|x l IH]; intros Hnd d0 k; simpl; [reflexivity|].
  simpl in Hnd. inversion Hnd as [|? ? Hx Hnd']; subst.
  rewrite (IH Hnd'). destruct (key x =? k)%Z eqn:E.
  - apply Z.eqb_eq in E.
    destruct (find (fun r => (key r =? k)%Z) l) as [r|] eqn:F.
    + apply find_some in F. destruct F as [Hr Er]. apply Z.eqb_eq in Er.
      exfalso. apply Hx. rewrite E, <- Er. now apply in_map.
    + unfold dict_set. simpl. rewrite <- E. now rewrite Z.eqb_refl.
  - destruct (find (fun r => (key r =? k)%Z) l); [reflexivity|].
    unfold dict_set. simpl. rewrite Z.eqb_sym, E. reflexivity.
Qed.

Lemma dict_zip_rows (l : list A) (k : Z) :
  NoDup (map key l) ->
  dict_zip (map key l) (cleaned column cleaner l) k
  = option_map (fun r => cleaner (column r)) (find (fun r => (key r =? k)%Z) l).
Proof.
  intros Hnd. unfold dict_zip, cleaned.
  rewrite (dict_of_rows (fun r => cleaner (column r)) l Hnd).
  destruct (find (fun r => (key r =? k)%Z) l); reflexivity.
Qed.

(** Every row of the validation frame, of the candidate passages and of
    the training frame gets the cleaned text of the first row of the frame
    that has its id; no row gets NaN. *)
Theorem clean_column_first_row (df : list A) :
  clean_column key column cleaner df
  = map (fun r => option_map (fun r0 => cleaner (column r0))
                             (find (fun r' => (key r' =? key r)%Z) df)) df /\
  clean_column_train key column cleaner df = clean_column key column cleaner df /\
  Forall (fun o => o <> None) (clean_column key column cleaner df).
Proof.
  assert (Hnd : NoDup (map key (drop_duplicates key df)))
    by (rewrite drop_duplicates_keys; apply FeatureFacts.unique_NoDup).
  assert (E : clean_column key column cleaner df
              = map (fun r => option_map (fun r0 => cleaner (column r0))
                                 (find (fun r' => (key r' =? key r)%Z) df)) df).
  { unfold clean_column, series_map. rewrite map_map. apply map_ext. intros r.
    rewrite <- drop_duplicates_keys, (dict_zip_rows _ _ Hnd).
    now rewrite find_drop_duplicates. }
  split; [exact E|]. split.
  - unfold clean_column_train, clean_column. now rewrite drop_duplicates_keys.
  - rewrite E. apply Forall_forall. intros o Ho. apply in_map_iff in Ho.
    destruct Ho as [r [<- Hr]].
    destruct (find (fun r' => (key r' =? key r)%Z) df) eqn:F; [discriminate|].
    pose proof (find_none _ _ F r Hr) as Hf. simpl in Hf.
    rewrite Z.eqb_refl in Hf. discriminate.
Qed.

(** When the ids of the test queries are distinct, a candidate row gets
    the cleaned text of the test query that has its qid, and NaN when
    there is none. *)
Theorem clean_column_test_aligned (test_queries : list A) (qids : list Z) :
  NoDup (map key test_queries) ->
  clean_column_test key column cleaner test_queries qids
  = map (fun q => option_map (fun r => cleaner (column r))
                             (find (fun r => (key r =? q)%Z) test_queries)) qids.
Proof.
  intros Hnd. unfold clean_column_test, series_map.
  rewrite (unique_of_NoDup _ Hnd). apply map_ext. intros q.
  now apply dict_zip_rows.
Qed.

End Columns.

Lemma clean_column_test_aligned_witness :
  let tq := [(7%Z, "a"%string); (9%Z, "b"%string)] in
  NoDup (map fst tq) /\
  clean_column_test fst snd (fun s => String.length s) tq [9%Z; 7%Z; 8%Z]
  = [Some 1; Some 1; None].
Proof.
  intros tq.
  assert (H : NoDup (map fst tq)).
  { constructor; [simpl; intros [E|[]]; discriminate|].
    constructor; [intros []|constructor]. }
  split; [exact H|].
  rewrite (clean_column_test_aligned _ _ _ fst snd (fun s => String.length s)
             tq [9%Z; 7%Z; 8%Z] H).
  reflexivity.
Defined.

End TablesFacts.
